(** * The Redis-backed cluster peer of the alerting notifier

    A shallow embedding of [pkg/services/ngalert/notifier/redis_peer.go].

    The peer talks to three kinds of external collaborators: the broker
    (SCAN, MGET, PUBLISH, SUBSCRIBE), the wall clock, and the objects it is
    handed (logger, Prometheus counters, registered [cluster.State]s and the
    protobuf codec).  What the peer receives from them is an argument of
    the embedded function (a broker reply, a clock reading, a delivered
    message); what the peer does to them is appended, in program order, to
    a trace of effects.  Each operation is modelled as it runs on its own:
    interleavings of the goroutines are out of the model. *)

From Stdlib Require Import ZArith Lia Ascii String.
From stdpp Require Import base option list sorting strings gmap fin_maps.

Open Scope Z_scope.

(** ** Go values *)

(** [[]byte] and [string] are both byte sequences; the conversions
    [string(b)] and [[]byte(s)] are the identity. *)
Abbreviation bytes := string.

(** [len] of a string or byte slice, as a Go [int]. *)
Definition len (s : string) : Z := Z.of_nat (String.length s).

(** Go's [int] is 64 bits wide on the platforms the service runs on;
    [x++] wraps around. *)
Definition wrap_int (z : Z) : Z := (z + 2 ^ 63) mod 2 ^ 64 - 2 ^ 63.
Definition incr (z : Z) : Z := wrap_int (z + 1).

(** A call either returns or panics. *)
Inductive Result (A : Type) : Type :=
| Ok (a : A)
| Panic (reason : string).
Arguments Ok {A} a.
Arguments Panic {A} reason.

(** ** Time

    A [time.Time] is given by its instant, the number of nanoseconds since
    the Unix epoch, and a [time.Duration] is a number of nanoseconds.  A
    reading of the clock is taken as it is.  [time.Unix] keeps the seconds
    since the year 1 in an [int64]: it carries whole seconds of [nsec]
    into [sec] and adds [unixToInternal], and both sums wrap around, so a
    second above [2^63 - 1 - unixToInternal] gives a time far in the
    past. *)
Module time.
Definition Time := Z.
Definition Duration := Z.
Definition Second : Duration := 1000000000.
Definition Minute : Duration := 60 * Second.
Definition unixToInternal : Z := 62135596800.
Definition Unix (sec nsec : Z) : Time :=
  (wrap_int (sec + nsec / Second + unixToInternal) - unixToInternal) * Second
  + nsec mod Second.
Definition Add (t : Time) (d : Duration) : Time := t + d.
Definition Before (t u : Time) : bool := t <? u.
Definition After (t u : Time) : bool := u <? t.
End time.

(** ** strconv.ParseInt(s, 10, 64)

    The standard library's parser, for base 10 and 64 bits: an optional
    sign, then one or more decimal digits, and a value that fits [int64].
    [None] stands for a returned error (syntax or range).  [ParseUint]
    keeps the exact value of the digits here; Go clamps it to the largest
    [uint64] and reports a range error, which [ParseInt] turns into its own
    range error exactly when the comparison with the cutoff below does. *)
Module strconv.
Definition digit (c : ascii) : option Z :=
  let n := Z.of_N (N_of_ascii c) in
  if (48 <=? n) && (n <=? 57) then Some (n - 48) else None.

Fixpoint ParseUint_from (acc : Z) (s : string) : option Z :=
  match s with
  | EmptyString => Some acc
  | String c s' =>
      match digit c with
      | Some d => ParseUint_from (acc * 10 + d) s'
      | None => None
      end
  end.

Definition ParseUint (s : string) : option Z :=
  match s with
  | EmptyString => None
  | _ => ParseUint_from 0 s
  end.

Definition cutoff : Z := 2 ^ 63.

Definition ParseInt (s : string) : option Z :=
  match s with
  | EmptyString => None
  | String c s' =>
      let neg := Ascii.eqb c "-" in
      let digits := if Ascii.eqb c "+" || neg then s' else s in
      match ParseUint digits with
      | None => None
      | Some un =>
          if negb neg && (cutoff <=? un) then None
          else if neg && (cutoff <? un) then None
          else Some (if neg then - un else un)
      end
  end.
End strconv.

(** ** sort.Strings

    Go compares strings byte by byte; [String.le] is that order.  The
    library sorts into increasing order, and since the order is total and
    antisymmetric there is one sorted arrangement of a slice
    ([sortStrings_unique] below), so the algorithm does not matter. *)
Definition sortStrings (x : list string) : list string := merge_sort String.le x.

(** ** The peer *)

Definition peerPattern : string := "*".
Definition fullState : string := "full_state".
Definition fullStateChannel : string := fullState.
Definition fullStateChannelReq : string := fullStateChannel +:+ ":request".
Definition update : string := "update".
Definition networkRetryInterval : time.Duration := time.Second * 10.

(** A registered [cluster.State].  The peer never looks inside one; what
    it can observe is whether [Merge] and [MarshalBinary] return an error.
    The object is modelled by the payloads it has been asked to merge so
    far ([merged], oldest first) and by how it answers in that condition. *)
Record State := mkState {
  merged : list bytes;
  Merge_err : list bytes → bytes → option string;
  MarshalBinary_ret : list bytes → bytes * option string
}.

Definition Merge (s : State) (b : bytes) : State * option string :=
  (mkState (merged s ++ [b]) (Merge_err s) (MarshalBinary_ret s),
   Merge_err s (merged s) b).

Definition MarshalBinary (s : State) : bytes * option string :=
  MarshalBinary_ret s (merged s).

(** The fields of [redisPeer] that are data.  [readyc] and [shutdownc]
    hold whether the channel has been closed. *)
Record redisPeer := mkPeer {
  name : string;
  prefix : string;
  states : gmap string State;
  subs : gmap string string;
  heartbeatTimeout : time.Duration;
  readyc : bool;
  shutdownc : bool;
  position : Z;
  positionFetchedAt : time.Time;
  positionValidFor : time.Duration
}.

(** ** Effects *)

Inductive Level := Debug | Info | Warn | Error.

Inductive Metric :=
  messagesReceived | messagesReceivedSize | messagesSent | messagesSentSize.

Inductive Chan := Readyc | Shutdownc.

Inductive Goroutine := ReceiveLoop (name : string) (channel : string).

(** Log lines are kept by level and message; their key/value pairs are
    left out.  [CounterAdd m l v] is [m.WithLabelValues(l).Add(v)], with
    [Inc] as [Add 1]. *)
Inductive Effect :=
| Log (lvl : Level) (msg : string)
| CounterAdd (m : Metric) (label : string) (v : Z)
| Publish (channel : string) (payload : string)
| Subscribe (channel : string)
| MergeCall (key : string) (data : bytes)
| Close (c : Chan)
| Sleep (d : time.Duration)
| Go (g : Goroutine).

#[global] Instance Level_eq_dec : EqDecision Level.
Proof. solve_decision. Defined.
#[global] Instance Metric_eq_dec : EqDecision Metric.
Proof. solve_decision. Defined.
#[global] Instance Chan_eq_dec : EqDecision Chan.
Proof. solve_decision. Defined.
#[global] Instance Goroutine_eq_dec : EqDecision Goroutine.
Proof. solve_decision. Defined.
#[global] Instance Effect_eq_dec : EqDecision Effect.
Proof. solve_decision. Defined.

Record World := mkWorld {
  self : redisPeer;
  trace : list Effect
}.

(** Computations over the world that may panic. *)
Definition M (A : Type) : Type := World → Result (A * World).

#[global] Instance M_ret : MRet M := λ A a w, Ok (a, w).
#[global] Instance M_bind : MBind M := λ A B f m w,
  match m w with
  | Ok (a, w') => f a w'
  | Panic e => Panic e
  end.

Definition panic {A} (reason : string) : M A := λ _, Panic reason.
Definition emit (e : Effect) : M unit :=
  λ w, Ok (tt, mkWorld (self w) (trace w ++ [e])).
Definition getPeer : M redisPeer := λ w, Ok (self w, w).
Definition putPeer (p : redisPeer) : M unit := λ w, Ok (tt, mkWorld p (trace w)).
Definition when (b : bool) (m : M unit) : M unit := if b then m else mret tt.

Definition withPrefix (p : redisPeer) (str : string) : string := prefix p +:+ str.

(** ** Membership *)

(** What the broker answered to SCAN (the cursor is dropped by the code)
    and to MGET: [mget_val] is [values.Val()], with [None] for a nil
    value. *)
Inductive ScanReply :=
| ScanErr (err : string)
| ScanKeys (members : list string).

Record MGetReply := mkMGet {
  mget_err : option string;
  mget_val : list (option string)
}.

(** The filtering loop of [Members].  [now i] is the reading of the clock
    taken while entry [i] is examined. *)
Fixpoint Members_loop (timeout : time.Duration) (vals : list (option string))
    (now : nat → time.Time) (i : nat) (members peers : list string)
    : Result (list string) :=
  match members with
  | [] => Ok peers
  | peer :: rest =>
      match vals !! i with
      | None => Panic "index out of range"
      | Some None => Members_loop timeout vals now (S i) rest peers
      | Some (Some val) =>
          match strconv.ParseInt val with
          | None => Panic "strconv.ParseInt: parsing failed"
          | Some ts =>
              let tm := time.Unix ts 0 in
              if time.Before tm (time.Add (now i) (- timeout))
              then Members_loop timeout vals now (S i) rest peers
              else Members_loop timeout vals now (S i) rest (peers ++ [peer])
          end
      end
  end.

Definition Members (scan : ScanReply) (mget : MGetReply) (now : nat → time.Time)
    : M (list string) :=
  p ← getPeer;
  match scan with
  | ScanErr _ =>
      emit (Log Error "error getting keys from redis");;
      mret []
  | ScanKeys members =>
      if Nat.eqb (length members) 0 then mret []
      else
        when (bool_decide (mget_err mget ≠ None))
             (emit (Log Error "error getting values from redis"));;
        match Members_loop (heartbeatTimeout p) (mget_val mget) now 0 members [] with
        | Panic e => panic e
        | Ok peers => mret (sortStrings peers)
        end
  end.

(** ** Position *)

Definition set_position (i : Z) (at_ : time.Time) (p : redisPeer) : redisPeer :=
  mkPeer (name p) (prefix p) (states p) (subs p) (heartbeatTimeout p)
         (readyc p) (shutdownc p) i at_ (positionValidFor p).

(** The scan [for i, peer := range members] up to its [return i]. *)
Fixpoint Position_loop (self_name : string) (i : nat) (members : list string)
    : option nat :=
  match members with
  | [] => None
  | peer :: rest =>
      if String.eqb peer self_name then Some i
      else Position_loop self_name (S i) rest
  end.

(** [Position] once [Members] has returned.  [nowCheck] is the clock read
    by the validity test (only read when the list is empty) and [nowFound]
    the one stored with a found position. *)
Definition Position_of (members : list string) (nowCheck nowFound : time.Time)
    : M Z :=
  p ← getPeer;
  if Nat.eqb (length members) 0
     && time.After (positionFetchedAt p) (time.Add nowCheck (- positionValidFor p))
  then
    emit (Log Warn "failed to fetch position from redis, falling back to last know position");;
    mret (position p)
  else
    match Position_loop (name p) 0 members with
    | Some i =>
        emit (Log Debug "cluster position found");;
        putPeer (set_position (Z.of_nat i) nowFound p);;
        mret (Z.of_nat i)
    | None => mret 0
    end.

Definition Position (scan : ScanReply) (mget : MGetReply) (now : nat → time.Time)
    (nowCheck nowFound : time.Time) : M Z :=
  members ← Members scan mget now;
  Position_of members nowCheck nowFound.

(** ** Cluster size and health *)

Definition ClusterSize (scan : ScanReply) : M Z :=
  match scan with
  | ScanErr _ =>
      emit (Log Error "error getting keys from redis");;
      mret 0
  | ScanKeys members => mret (Z.of_nat (length members))
  end.

Definition GetHealthScore (scan1 scan2 : ScanReply) (mget : MGetReply)
    (now : nat → time.Time) : M Z :=
  size ← ClusterSize scan1;
  l ← Members scan2 mget now;
  let members := Z.of_nat (length l) in
  if members <? size then mret (size - members) else mret 0.

(** ** Channels that are closed once *)

Definition closed (p : redisPeer) (c : Chan) : bool :=
  match c with Readyc => readyc p | Shutdownc => shutdownc p end.

Definition set_closed (c : Chan) (p : redisPeer) : redisPeer :=
  match c with
  | Readyc =>
      mkPeer (name p) (prefix p) (states p) (subs p) (heartbeatTimeout p)
             true (shutdownc p) (position p) (positionFetchedAt p) (positionValidFor p)
  | Shutdownc =>
      mkPeer (name p) (prefix p) (states p) (subs p) (heartbeatTimeout p)
             (readyc p) true (position p) (positionFetchedAt p) (positionValidFor p)
  end.

(** [close(c)]: closing a closed channel panics. *)
Definition close (c : Chan) : M unit :=
  p ← getPeer;
  if closed p c then panic "close of closed channel"
  else emit (Close c);; putPeer (set_closed c p).

(** ** Settle *)

Definition NumOkayRequired : Z := 3.

(** [pubErr] is the error, if any, the broker answers to a PUBLISH. *)
Definition requestFullState (pubErr : option string) : M unit :=
  p ← getPeer;
  emit (Publish (withPrefix p fullStateChannelReq) (name p));;
  when (bool_decide (pubErr ≠ None))
       (emit (Log Error "error publishing a message to redis")).

(** What the [select] of one turn of the loop picks: the caller's context
    is done, or the timer fired; with the timer come the broker's replies
    and the clock readings for the [Members] call of that turn. *)
Inductive SettleEvent :=
| CtxDone
| TimerFired (scan : ScanReply) (mget : MGetReply) (now : nat → time.Time).

(** How the [for] loop was left; [Blocked] when the schedule has no more
    events, and the loop is waiting in its [select]. *)
Inductive LoopExit := Break | Return | Blocked.

(** How a [range] loop inside a function was left: at its end, or by a
    [return]. *)
Inductive RangeExit := RangeDone | RangeReturn.

Fixpoint Settle_loop (evs : list SettleEvent) (nPeers nOkay totalPolls : Z)
    : M LoopExit :=
  match evs with
  | [] => mret Blocked
  | CtxDone :: _ =>
      emit (Log Info "gossip not settled but continuing anyway");;
      close Readyc;;
      mret Return
  | TimerFired scan mget now :: evs' =>
      l ← Members scan mget now;
      let n := Z.of_nat (length l) in
      if NumOkayRequired <=? nOkay then
        emit (Log Info "gossip settled; proceeding");;
        mret Break
      else if n =? nPeers then
        emit (Log Debug "gossip looks settled");;
        Settle_loop evs' n (incr nOkay) (incr totalPolls)
      else
        emit (Log Info "gossip not settled");;
        Settle_loop evs' n 0 (incr totalPolls)
  end.

Definition Settle (evs : list SettleEvent) (pubErr : option string) : M LoopExit :=
  emit (Log Info "Waiting for gossip to settle...");;
  exit ← Settle_loop evs 0 0 0;
  match exit with
  | Break =>
      requestFullState pubErr;;
      close Readyc;;
      mret Break
  | _ => mret exit
  end.

(** ** Envelopes and their codec *)

Module clusterpb.
Record Part := mkPart { Key : string; Data : bytes }.
Record FullState := mkFullState { Parts : list Part }.
End clusterpb.
Import clusterpb.

(** [proto.Marshal] and [proto.Unmarshal] at the two message types.  The
    wire format belongs to the protobuf library; the peer sees only the
    bytes and whether an error came back ([None] from [Unmarshal]). *)
Class Proto := {
  Marshal_Part : Part → bytes * option string;
  Unmarshal_Part : bytes → option Part;
  Marshal_FullState : FullState → bytes * option string;
  Unmarshal_FullState : bytes → option FullState
}.

Record RedisChannel := mkChannel {
  channel : string;
  msgType : string
}.

Definition set_states (m : gmap string State) (p : redisPeer) : redisPeer :=
  mkPeer (name p) (prefix p) m (subs p) (heartbeatTimeout p)
         (readyc p) (shutdownc p) (position p) (positionFetchedAt p) (positionValidFor p).

Definition set_subs (m : gmap string string) (p : redisPeer) : redisPeer :=
  mkPeer (name p) (prefix p) (states p) m (heartbeatTimeout p)
         (readyc p) (shutdownc p) (position p) (positionFetchedAt p) (positionValidFor p).

(** [s.Merge(data)] on the state registered under [key]: the call is
    traced and the object it changed is the one in the registry. *)
Definition callMerge (key : string) (s : State) (data : bytes) : M (option string) :=
  let '(s', err) := Merge s data in
  emit (MergeCall key data);;
  p ← getPeer;
  putPeer (set_states (<[key := s']> (states p)) p);;
  mret err.

(** What [ReceiveMessage] returned, and what one turn of a receive loop
    finds: the shutdown channel closed, or the outcome of a receive. *)
Inductive Received :=
| Message (payload : string)
| NetOpError (err : string)
| OtherError (err : string).

Inductive LoopEvent :=
| ShutdownClosed
| Receive (r : Received).

Section Peer.
Context {codec : Proto}.

(** The order in which [range] walks the registry; Go leaves it open. *)
Variable mapRange : gmap string State → list (string * State).

(** *** State registration and the delta channel *)

Definition AddState (key : string) (state : State) : M RedisChannel :=
  p ← getPeer;
  putPeer (set_states (<[key := state]> (states p)) p);;
  emit (Subscribe (withPrefix p key));;
  emit (Go (ReceiveLoop key (withPrefix p key)));;
  p' ← getPeer;
  putPeer (set_subs (<[key := withPrefix p key]> (subs p')) p');;
  mret (mkChannel (withPrefix p key) update).

Definition Broadcast (c : RedisChannel) (b : bytes) (pubErr : option string)
    : M unit :=
  let '(b', err) := Marshal_Part (mkPart (channel c) b) in
  if bool_decide (err ≠ None) then mret tt
  else
    emit (Publish (channel c) b');;
    if bool_decide (pubErr ≠ None) then
      emit (Log Error "error publishing a message to redis")
    else
      emit (CounterAdd messagesSent (msgType c) 1);;
      emit (CounterAdd messagesSentSize (msgType c) (len b')).

(** *** The per-state delta receive loop *)

(** One delivered message, from the counters on. *)
Definition receiveLoop_message (payload : string) : M unit :=
  emit (CounterAdd messagesReceived update 1);;
  emit (CounterAdd messagesReceivedSize update (len payload));;
  match Unmarshal_Part payload with
  | None => emit (Log Warn "error decoding the received broadcast message")
  | Some part =>
      p ← getPeer;
      match states p !! Key part with
      | None => mret tt
      | Some s =>
          err ← callMerge (Key part) s (Data part);
          when (bool_decide (err ≠ None))
               (emit (Log Warn "error merging the received broadcast message"))
      end
  end.

Fixpoint receiveLoop (evs : list LoopEvent) : M LoopExit :=
  match evs with
  | [] => mret Blocked
  | ShutdownClosed :: _ => mret Return
  | Receive r :: evs' =>
      match r with
      | NetOpError _ =>
          emit (Log Error "network error, waiting 10 seconds before retry");;
          emit (Sleep networkRetryInterval);;
          receiveLoop evs'
      | OtherError _ =>
          emit (Log Error "error receiving message from redis");;
          receiveLoop evs'
      | Message payload =>
          receiveLoop_message payload;;
          receiveLoop evs'
      end
  end.

(** *** Full-state publish *)

(** The loop of [LocalState] that fills [all.Parts]. *)
Fixpoint LocalState_parts (kvs : list (string * State)) (parts : list Part)
    : M (list Part) :=
  match kvs with
  | [] => mret parts
  | (key, s) :: rest =>
      let '(b, err) := MarshalBinary s in
      when (bool_decide (err ≠ None))
           (emit (Log Warn "error encoding the local state"));;
      LocalState_parts rest (parts ++ [mkPart key b])
  end.

(** [all], as handed to [proto.Marshal]. *)
Definition LocalState_all : M FullState :=
  p ← getPeer;
  parts ← LocalState_parts (mapRange (states p)) [];
  mret (mkFullState parts).

Definition LocalState : M bytes :=
  all ← LocalState_all;
  let '(b, err) := Marshal_FullState all in
  when (bool_decide (err ≠ None))
       (emit (Log Warn "error encoding the local state to proto"));;
  emit (CounterAdd messagesSent fullState 1);;
  emit (CounterAdd messagesSentSize fullState (len b));;
  mret b.

Definition fullStateSyncPublish (pubErr : option string) : M unit :=
  b ← LocalState;
  p ← getPeer;
  emit (Publish (withPrefix p fullStateChannel) b);;
  when (bool_decide (pubErr ≠ None))
       (emit (Log Error "error publishing a message to redis")).

(** *** The full-state request receive loop

    Each event comes with the broker's answer to the publish that turn
    may make. *)
Definition fullStateReqReceive_message (payload : string) (pubErr : option string)
    : M unit :=
  p ← getPeer;
  if String.eqb payload (name p) then mret tt
  else fullStateSyncPublish pubErr.

Fixpoint fullStateReqReceiveLoop (evs : list (LoopEvent * option string))
    : M LoopExit :=
  match evs with
  | [] => mret Blocked
  | (ShutdownClosed, _) :: _ => mret Return
  | (Receive r, pubErr) :: evs' =>
      match r with
      | NetOpError _ =>
          emit (Log Error "network error, waiting 10 seconds before retry");;
          emit (Sleep networkRetryInterval);;
          fullStateReqReceiveLoop evs'
      | OtherError _ =>
          emit (Log Error "error receiving message from redis");;
          fullStateReqReceiveLoop evs'
      | Message payload =>
          fullStateReqReceive_message payload pubErr;;
          fullStateReqReceiveLoop evs'
      end
  end.

(** *** The full-state receive loop *)

(** The inline function that merges the parts of one message under the
    read lock.  Its [return] leaves the inline function only; the result
    tells whether it was left by that [return] or at the end of the
    range. *)
Fixpoint mergeParts (parts : list Part) : M RangeExit :=
  match parts with
  | [] => mret RangeDone
  | part :: rest =>
      p ← getPeer;
      match states p !! Key part with
      | None =>
          emit (Log Warn "received");;
          mergeParts rest
      | Some s =>
          err ← callMerge (Key part) s (Data part);
          if bool_decide (err ≠ None) then
            emit (Log Warn "error merging the received remote state");;
            mret RangeReturn
          else mergeParts rest
      end
  end.

Definition fullStateSyncReceive_message (payload : string) : M unit :=
  emit (CounterAdd messagesReceived fullState 1);;
  emit (CounterAdd messagesReceivedSize fullState (len payload));;
  match Unmarshal_FullState payload with
  | None => emit (Log Warn "error unmarshaling the received remote state")
  | Some fs => mergeParts (Parts fs);; mret tt
  end.

Fixpoint fullStateSyncReceiveLoop (evs : list LoopEvent) : M LoopExit :=
  match evs with
  | [] => mret Blocked
  | ShutdownClosed :: _ => mret Return
  | Receive r :: evs' =>
      match r with
      | NetOpError _ =>
          emit (Log Error "network error, waiting 10 seconds before retry");;
          emit (Sleep networkRetryInterval);;
          fullStateSyncReceiveLoop evs'
      | OtherError _ =>
          emit (Log Error "error receiving message from redis");;
          fullStateSyncReceiveLoop evs'
      | Message payload =>
          fullStateSyncReceive_message payload;;
          fullStateSyncReceiveLoop evs'
      end
  end.

End Peer.

(** ** Heartbeat, periodic publish and shutdown *)

Definition redisServerLabel : string := "redis-server".

(** [t.Unix()]: the seconds since the epoch, rounded down. *)
Definition unixSeconds (t : time.Time) : Z := t / time.Second.

(** The client writes an [int64] argument of a command in decimal, as
    [strconv.FormatInt(v, 10)] does: a minus sign for a negative value and
    the digits without leading zeros.  Twenty rounds cover 64 bits. *)
Fixpoint formatDigits (fuel : nat) (n : Z) (acc : string) : string :=
  match fuel with
  | O => acc
  | S fuel' =>
      let acc' := String (ascii_of_N (Z.to_N (48 + n mod 10))) acc in
      if n <? 10 then acc' else formatDigits fuel' (n / 10) acc'
  end.

Definition FormatInt (z : Z) : string :=
  if z <? 0 then String "-" (formatDigits 20 (- z) "")
  else formatDigits 20 z "".

(** Calls on the broker, the latency histogram and the ticker that the
    effects above have no constructor for; [Eff] embeds those effects.
    [Observe] keeps the duration; its conversion to seconds as a float is
    left out. *)
Inductive Cmd :=
| Eff (e : Effect)
| SetEX (key value : string) (ttl : time.Duration)
| Del (key : string)
| Observe (label : string) (d : time.Duration)
| TickerStop.

(** What the [select] of the heartbeat loop picks: a tick, with the clock
    read for the value, the duration of the request and the error of the
    SET if any; or the closed shutdown channel. *)
Inductive HeartbeatEvent :=
| HbTick (now : time.Time) (reqDur : time.Duration) (setErr : option string)
| HbShutdown.

Fixpoint heartbeatLoop (p : redisPeer) (evs : list HeartbeatEvent)
    : list Cmd * LoopExit :=
  match evs with
  | [] => ([], Blocked)
  | HbShutdown :: _ => ([TickerStop], Return)
  | HbTick now reqDur setErr :: evs' =>
      let set := SetEX (withPrefix p (name p)) (FormatInt (unixSeconds now))
                       (time.Minute * 5) in
      let '(cmds, exit) := heartbeatLoop p evs' in
      if bool_decide (setErr ≠ None) then
        (set :: Eff (Log Error "error setting the heartbeat key") :: cmds, exit)
      else
        (set :: Observe redisServerLabel reqDur :: cmds, exit)
  end.

(** [WaitReady]: [ctxErr] is the error of the caller's context when it is
    done, and [pickCtx] says which case the [select] takes when both are
    ready.  [None] as the outcome: the call is still blocked. *)
Definition WaitReady (ctxErr : option string) (pickCtx : bool) (p : redisPeer)
    : option (option string) :=
  match ctxErr, readyc p with
  | None, false => None
  | None, true => Some None
  | Some err, false => Some (Some err)
  | Some err, true => if pickCtx then Some (Some err) else Some None
  end.

Section Lifecycle.
Context {codec : Proto}.
Variable mapRange : gmap string State → list (string * State).


(** [Shutdown]: the result holds the world after the final publish and
    the commands issued after it, the DEL of the peer's key and the log
    line for its error. *)
Definition Shutdown (pubErr delErr : option string) (w : World)
    : Result (World * list Cmd) :=
  match (emit (Log Info "Stopping redis peer...");;
         close Shutdownc;;
         fullStateSyncPublish mapRange pubErr) w with
  | Panic e => Panic e
  | Ok (_, w') =>
      Ok (w', Del (withPrefix (self w') (name (self w')))
              :: (if bool_decide (delErr ≠ None)
                  then [Eff (Log Error "error deleting the redis key on shutdown")]
                  else []))
  end.

End Lifecycle.

(** ** Definitions used to state the properties *)

(** What [Members] returns, apart from its log lines. *)
Definition Members_result (timeout : time.Duration) (scan : ScanReply)
    (mget : MGetReply) (now : nat → time.Time) : Result (list string) :=
  match scan with
  | ScanErr _ => Ok []
  | ScanKeys members =>
      if Nat.eqb (length members) 0 then Ok []
      else match Members_loop timeout (mget_val mget) now 0 members [] with
           | Panic e => Panic e
           | Ok peers => Ok (sortStrings peers)
           end
  end.

Definition Members_log (scan : ScanReply) (mget : MGetReply) : list Effect :=
  match scan with
  | ScanErr _ => [Log Error "error getting keys from redis"]
  | ScanKeys members =>
      if Nat.eqb (length members) 0 then []
      else if bool_decide (mget_err mget ≠ None)
           then [Log Error "error getting values from redis"]
           else []
  end.

(** The keys SCAN returned, none when it failed. *)
Definition scanned (scan : ScanReply) : list string :=
  match scan with
  | ScanErr _ => []
  | ScanKeys members => members
  end.

(** A value is fresh at [now] when it is present, parses as decimal
    seconds, and is not earlier than [now - timeout]. *)
Definition fresh (timeout : time.Duration) (now : time.Time) (val : option string)
    : bool :=
  match val with
  | None => false
  | Some v =>
      match strconv.ParseInt v with
      | None => false
      | Some ts => now - timeout <=? time.Unix ts 0
      end
  end.

(** The keys with a fresh value, in SCAN order; entry [i] of the keys
    goes with value [i + k] and clock reading [now (i + k)]. *)
Fixpoint live_keys (timeout : time.Duration) (vals : list (option string))
    (now : nat → time.Time) (k : nat) (keys : list string) : list string :=
  match keys with
  | [] => []
  | key :: rest =>
      (if fresh timeout (now k) (from_option id None (vals !! k)) then [key] else [])
        ++ live_keys timeout vals now (S k) rest
  end.

(** MGET answered every key: [values.Val()] has an entry, a string or
    nil, at every index of the keys. *)
Definition answered (keys : list string) (vals : list (option string)) : Prop :=
  (length keys ≤ length vals)%nat.

(** Every value present for a key parses as a decimal 64-bit integer. *)
Definition parseable (keys : list string) (vals : list (option string)) : Prop :=
  ∀ i v, (i < length keys)%nat → vals !! i = Some (Some v) →
         is_Some (strconv.ParseInt v).

(** The largest second that [time.Unix] takes without wrapping around,
    and: every value present for a key parses to a second that is not
    above it. *)
Definition maxUnixSecond : Z := 2 ^ 63 - 1 - time.unixToInternal.

Definition representable (keys : list string) (vals : list (option string)) : Prop :=
  ∀ i v ts, (i < length keys)%nat → vals !! i = Some (Some v) →
            strconv.ParseInt v = Some ts → ts ≤ maxUnixSecond.

(** In the words of the claim: a value is timely at [now] when it is
    present and, parsed as decimal integer seconds, is not earlier than
    [now - timeout]; and the keys with a timely value, in SCAN order. *)
Definition timely (timeout : time.Duration) (now : time.Time) (val : option string)
    : bool :=
  match val with
  | None => false
  | Some v =>
      match strconv.ParseInt v with
      | None => false
      | Some ts => now - timeout <=? ts * time.Second
      end
  end.

Fixpoint timely_keys (timeout : time.Duration) (vals : list (option string))
    (now : nat → time.Time) (k : nat) (keys : list string) : list string :=
  match keys with
  | [] => []
  | key :: rest =>
      (if timely timeout (now k) (from_option id None (vals !! k)) then [key] else [])
        ++ timely_keys timeout vals now (S k) rest
  end.

(** ** The constructor's data

    [newRedisPeer] as far as the fields above go: the name defaults to
    [peer-<uuid>], a prefix that is not empty ends with a colon, and the
    two well-known channels are subscribed. *)
Definition zeroTime : time.Time := time.Unix (-62135596800) 0.

Fixpoint lastByte (s : string) : option ascii :=
  match s with
  | EmptyString => None
  | String c EmptyString => Some c
  | String _ s' => lastByte s'
  end.

Definition normalizePrefix (prefix : string) : string :=
  match lastByte prefix with
  | None => prefix
  | Some c => if Ascii.eqb c ":" then prefix else prefix +:+ ":"
  end.

Definition newRedisPeer (cfg_name cfg_prefix uuid : string) : redisPeer :=
  let name := if String.eqb cfg_name "" then "peer-" +:+ uuid else cfg_name in
  let prefix := normalizePrefix cfg_prefix in
  mkPeer name prefix ∅
         (<[fullStateChannelReq := prefix +:+ fullStateChannelReq]>
            (<[fullStateChannel := prefix +:+ fullStateChannel]> ∅))
         time.Minute false false 0 zeroTime time.Minute.

(** ** Worlds and traces, for the statements below *)

(** The world after one more effect, and after [Merge(data)] on the state
    [s] registered under [key]. *)
Definition logged (e : Effect) (w : World) : World :=
  mkWorld (self w) (trace w ++ [e]).

Definition merged_world (key : string) (s : State) (data : bytes) (w : World)
    : World :=
  mkWorld (set_states (<[key := (Merge s data).1]> (states (self w))) (self w))
          (trace w ++ [MergeCall key data]).

(** The part [LocalState] builds for a registry entry, and the warnings
    it logs over a walk of the registry. *)
Definition part_of (kv : string * State) : Part :=
  mkPart kv.1 (MarshalBinary kv.2).1.

Definition marshal_logs (kvs : list (string * State)) : list Effect :=
  flat_map (λ kv, if bool_decide ((MarshalBinary kv.2).2 ≠ None)
                  then [Log Warn "error encoding the local state"] else []) kvs.

(** The PUBLISH commands of a trace, the calls of [Merge], and whether an
    effect is a counter update. *)
Definition publishes (t : list Effect) : list (string * string) :=
  omap (λ e, match e with Publish c p => Some (c, p) | _ => None end) t.

Definition merges (t : list Effect) : list (string * bytes) :=
  omap (λ e, match e with MergeCall k d => Some (k, d) | _ => None end) t.

Definition is_counter (e : Effect) : bool :=
  match e with CounterAdd _ _ _ => true | _ => false end.

(** The envelope [LocalState] marshals for a walk [kvs] of the registry,
    what it appends to the trace, and what a full-state publish appends. *)
Definition LocalState_envelope (kvs : list (string * State)) : FullState :=
  mkFullState (part_of <$> kvs).

Definition LocalState_trace `{Proto} (kvs : list (string * State)) : list Effect :=
  let '(b, err) := Marshal_FullState (LocalState_envelope kvs) in
  marshal_logs kvs
  ++ (if bool_decide (err ≠ None)
      then [Log Warn "error encoding the local state to proto"] else [])
  ++ [CounterAdd messagesSent fullState 1;
      CounterAdd messagesSentSize fullState (len b)].

Definition fullStateSyncPublish_trace `{Proto} (p : redisPeer)
    (kvs : list (string * State)) (pubErr : option string) : list Effect :=
  LocalState_trace kvs
  ++ [Publish (withPrefix p fullStateChannel)
              (Marshal_FullState (LocalState_envelope kvs)).1]
  ++ (if bool_decide (pubErr ≠ None)
      then [Log Error "error publishing a message to redis"] else []).

(** ** Polls of the settle loop, for the statements below *)

(** The member count a turn of the settle loop observes: the length of
    what [Members] returns on the replies that come with the timer. *)
Definition observation (p : redisPeer) (ev : SettleEvent) : option Z :=
  match ev with
  | CtxDone => None
  | TimerFired scan mget now =>
      match Members_result (heartbeatTimeout p) scan mget now with
      | Ok l => Some (Z.of_nat (length l))
      | Panic _ => None
      end
  end.

(** The counts a run of polls observes, when each of them is a timer
    event on which [Members] returns. *)
Fixpoint observations (p : redisPeer) (evs : list SettleEvent) : option (list Z) :=
  match evs with
  | [] => Some []
  | ev :: evs' =>
      match observation p ev, observations p evs' with
      | Some c, Some cs => Some (c :: cs)
      | _, _ => None
      end
  end.

(** In a history of counts, newest first, the newest [k] counts are each
    equal to the count before. *)
Definition unchanged (h : list Z) (k : nat) : Prop :=
  ∃ a, take (S k) h = replicate (S k) a.

(** The last [k] polls of [cs] (oldest first) each observed an unchanged
    member count: the same as the poll before, or as the initial count 0
    for the first poll. *)
Definition unchanged_polls (cs : list Z) (k : nat) : Prop :=
  unchanged (reverse cs ++ [0]) k.

(** The counter [nOkay] against the history of counts (newest first): it
    is between 0 and 3, the newest [nOkay] counts are unchanged, and below
    3 no more of them are. *)
Definition okay_exact (h : list Z) (nOkay : Z) : Prop :=
  0 ≤ nOkay ≤ 3
  ∧ unchanged h (Z.to_nat nOkay)
  ∧ (nOkay < 3 → ¬ unchanged h (S (Z.to_nat nOkay))).

Definition is_log (e : Effect) : bool :=
  match e with Log _ _ => true | _ => false end.

(** What [requestFullState] appends to the trace. *)
Definition requestFullState_trace (p : redisPeer) (pubErr : option string)
    : list Effect :=
  Publish (withPrefix p fullStateChannelReq) (name p)
  :: (if bool_decide (pubErr ≠ None)
      then [Log Error "error publishing a message to redis"] else []).

(** ** Heartbeats, for the statements below *)

(** The ticks of a heartbeat schedule that come before the shutdown
    channel is found closed, the SET commands among a list of commands
    and the latencies observed. *)
Fixpoint ticks_before_shutdown (evs : list HeartbeatEvent)
    : list (time.Time * time.Duration * option string) :=
  match evs with
  | [] => []
  | HbShutdown :: _ => []
  | HbTick now reqDur setErr :: evs' =>
      (now, reqDur, setErr) :: ticks_before_shutdown evs'
  end.

Definition sets (cmds : list Cmd) : list (string * string * time.Duration) :=
  omap (λ c, match c with SetEX k v ttl => Some (k, v, ttl) | _ => None end) cmds.

Definition observes (cmds : list Cmd) : list time.Duration :=
  omap (λ c, match c with Observe _ d => Some d | _ => None end) cmds.

(** ** Schedules of the loops, for the statements below *)

(** The counter updates and the sleeps of a trace. *)
Definition counter_updates (t : list Effect) : list Effect :=
  filter (λ e, is_counter e = true) t.

Definition sleeps (t : list Effect) : list time.Duration :=
  omap (λ e, match e with Sleep d => Some d | _ => None end) t.

(** Of a schedule of a receive loop, up to the turn that finds the
    shutdown channel closed: the payloads delivered, the number of
    network errors, and whether there is such a turn. *)
Fixpoint delivered (evs : list LoopEvent) : list string :=
  match evs with
  | [] => []
  | ShutdownClosed :: _ => []
  | Receive (Message payload) :: evs' => payload :: delivered evs'
  | Receive _ :: evs' => delivered evs'
  end.

Fixpoint network_errors (evs : list LoopEvent) : nat :=
  match evs with
  | [] => 0
  | ShutdownClosed :: _ => 0
  | Receive (NetOpError _) :: evs' => S (network_errors evs')
  | Receive _ :: evs' => network_errors evs'
  end.

Fixpoint sees_shutdown (evs : list LoopEvent) : bool :=
  match evs with
  | [] => false
  | ShutdownClosed :: _ => true
  | Receive _ :: evs' => sees_shutdown evs'
  end.

Definition exit_of (shutdown : bool) : LoopExit :=
  if shutdown then Return else Blocked.




(** ** A codec for the examples

    The protobuf wire format of the two messages: [Part] has the
    length-delimited fields 1 (key) and 2 (data), written when not empty,
    and [FullState] the repeated length-delimited field 1 (parts).  The
    decoder accepts these fields only. *)
Module wire.
Fixpoint varint_fuel (fuel : nat) (n : N) : string :=
  match fuel with
  | O => ""
  | S fuel' =>
      if (n <? 128)%N then String (ascii_of_N n) ""
      else String (ascii_of_N (128 + n mod 128)) (varint_fuel fuel' (n / 128))
  end.

Definition varint (n : N) : string := varint_fuel 10 n.

Definition field (tag : N) (payload : string) : string :=
  String (ascii_of_N tag) (varint (N.of_nat (String.length payload)) +:+ payload).

Fixpoint read_varint (fuel : nat) (s : string) : option (N * string) :=
  match fuel, s with
  | S fuel', String c s' =>
      let b := N_of_ascii c in
      if (b <? 128)%N then Some (b, s')
      else match read_varint fuel' s' with
           | Some (hi, rest) => Some (b - 128 + 128 * hi, rest)%N
           | None => None
           end
  | _, _ => None
  end.

Fixpoint split_at (n : nat) (s : string) : option (string * string) :=
  match n, s with
  | O, _ => Some ("", s)
  | S n', String c s' =>
      match split_at n' s' with
      | Some (a, b) => Some (String c a, b)
      | None => None
      end
  | S _, EmptyString => None
  end.

Definition read_field (s : string) : option (N * string * string) :=
  match s with
  | EmptyString => None
  | String tag s1 =>
      match read_varint 10 s1 with
      | None => None
      | Some (n, s2) =>
          match split_at (N.to_nat n) s2 with
          | None => None
          | Some (payload, rest) => Some (N_of_ascii tag, payload, rest)
          end
      end
  end.

Fixpoint read_Part (fuel : nat) (s : string) (acc : clusterpb.Part)
    : option clusterpb.Part :=
  match s, fuel with
  | EmptyString, _ => Some acc
  | _, O => None
  | _, S fuel' =>
      match read_field s with
      | Some (10%N, payload, rest) =>
          read_Part fuel' rest (clusterpb.mkPart payload (clusterpb.Data acc))
      | Some (18%N, payload, rest) =>
          read_Part fuel' rest (clusterpb.mkPart (clusterpb.Key acc) payload)
      | _ => None
      end
  end.

Definition marshal_Part (p : clusterpb.Part) : string :=
  (if String.eqb (clusterpb.Key p) "" then "" else field 10 (clusterpb.Key p))
  +:+ (if String.eqb (clusterpb.Data p) "" then "" else field 18 (clusterpb.Data p)).

Definition unmarshal_Part (s : string) : option clusterpb.Part :=
  read_Part (String.length s) s (clusterpb.mkPart "" "").

Fixpoint read_Parts (fuel : nat) (s : string) (acc : list clusterpb.Part)
    : option (list clusterpb.Part) :=
  match s, fuel with
  | EmptyString, _ => Some acc
  | _, O => None
  | _, S fuel' =>
      match read_field s with
      | Some (10%N, payload, rest) =>
          match unmarshal_Part payload with
          | Some part => read_Parts fuel' rest (acc ++ [part])
          | None => None
          end
      | _ => None
      end
  end.

Definition marshal_FullState (fs : clusterpb.FullState) : string :=
  foldr (λ part out, field 10 (marshal_Part part) +:+ out) "" (clusterpb.Parts fs).

Definition unmarshal_FullState (s : string) : option clusterpb.FullState :=
  clusterpb.mkFullState <$> read_Parts (String.length s) s [].
End wire.

#[local] Instance wireProto : Proto := {|
  Marshal_Part p := (wire.marshal_Part p, None);
  Unmarshal_Part := wire.unmarshal_Part;
  Marshal_FullState fs := (wire.marshal_FullState fs, None);
  Unmarshal_FullState := wire.unmarshal_FullState
|}.

(** ** Sample inputs *)

(** A state that merges and marshals without error, one whose [Merge]
    rejects every payload, and one whose [MarshalBinary] fails. *)
Definition goodState : State :=
  mkState [] (λ _ _, None) (λ merged, (foldr String.append "" merged, None)).
Definition rejectingState : State :=
  mkState [] (λ _ _, Some "merge rejected") (λ _, ("", None)).
Definition unmarshalableState : State :=
  mkState [] (λ _ _, None) (λ _, ("", Some "marshal failed")).

Definition peerA : redisPeer := newRedisPeer "peer-a" "am" "".
Definition worldA : World := mkWorld peerA [].

(** A peer without a key prefix, whose name is its broker key. *)
Definition peerB : redisPeer := newRedisPeer "peer-b" "" "".
Definition worldB : World := mkWorld peerB [].

(** A peer with two registered states, and one whose only state cannot be
    marshalled. *)
Definition peerC : redisPeer :=
  set_states (<["sil" := rejectingState]> (<["nfl" := goodState]> ∅))
             (newRedisPeer "peer-c" "am" "").
Definition worldC : World := mkWorld peerC [].

Definition peerD : redisPeer :=
  set_states (<["nfl" := unmarshalableState]> ∅) (newRedisPeer "peer-d" "am" "").
Definition worldD : World := mkWorld peerD [].

(** A timer event of the settle loop on which two peers are live. *)
Definition tickTwo : SettleEvent :=
  TimerFired (ScanKeys ["am:peer-a"; "am:peer-b"])
             (mkMGet None [Some "1000"; Some "1000"]) (λ _, time.Unix 1050 0).

(** A clock that stands still at second [sec]. *)
Definition clockAt (sec : Z) : nat → time.Time := λ _, time.Unix sec 0.

(** * Properties *)

Ltac run :=
  repeat (unfold mbind, M_bind, mret, M_ret, emit, getPeer, putPeer, when, panic
          || simpl).

(** ** Sorting *)

Lemma sortStrings_Sorted (l : list string) : Sorted String.le (sortStrings l).
Proof. apply Sorted_merge_sort; apply _. Qed.

Lemma sortStrings_Permutation (l : list string) : sortStrings l ≡ₚ l.
Proof. apply merge_sort_Permutation. Qed.

(** Any procedure that sorts a slice into increasing order returns what
    [sortStrings] returns. *)
Lemma sortStrings_unique (l k : list string) :
  Sorted String.le k → k ≡ₚ l → k = sortStrings l.
Proof.
  intros Hs Hp. apply (Sorted_unique String.le); auto using sortStrings_Sorted.
  by rewrite sortStrings_Permutation.
Qed.

Lemma sortStrings_elem_of (x : string) (l : list string) :
  x ∈ sortStrings l ↔ x ∈ l.
Proof. by rewrite sortStrings_Permutation. Qed.

(** ** strconv.ParseInt *)

Lemma ParseUint_from_ge s : ∀ acc v,
  0 ≤ acc → strconv.ParseUint_from acc s = Some v → acc ≤ v.
Proof.
  induction s as [|c s IH]; intros acc v Hacc; simpl.
  { intros [= <-]. lia. }
  unfold strconv.digit.
  destruct (Z.leb_spec 48 (Z.of_N (N_of_ascii c))) as [Hlo|]; [|done].
  destruct (Z.leb_spec (Z.of_N (N_of_ascii c)) 57) as [Hhi|]; [|done].
  simpl. intros Hv%IH; lia.
Qed.

(** What [ParseInt] returns is a 64-bit signed integer: a decimal string
    whose value is outside that range is an error, as is an empty string,
    a lone sign, or any byte that is not a decimal digit. *)
Lemma ParseInt_int64 s z :
  strconv.ParseInt s = Some z → - 2 ^ 63 ≤ z < 2 ^ 63.
Proof.
  unfold strconv.ParseInt. destruct s as [|c s]; [done|].
  destruct (strconv.ParseUint _) as [un|] eqn:Hun; [|done].
  assert (0 ≤ un).
  { unfold strconv.ParseUint in Hun.
    destruct (if (c =? "+")%char || (c =? "-")%char then s else String c s);
      [done|]. by apply ParseUint_from_ge in Hun. }
  unfold strconv.cutoff.
  destruct (c =? "-")%char; simpl.
  - destruct (Z.ltb_spec (2 ^ 63) un); [done|]. intros [= <-]. lia.
  - destruct (Z.leb_spec (2 ^ 63) un); [done|]. intros [= <-]. lia.
Qed.

Example ParseInt_examples :
  strconv.ParseInt "1700000000" = Some 1700000000
  ∧ strconv.ParseInt "+7" = Some 7
  ∧ strconv.ParseInt "-9223372036854775808" = Some (- 2 ^ 63)
  ∧ strconv.ParseInt "9223372036854775807" = Some (2 ^ 63 - 1)
  ∧ strconv.ParseInt "9223372036854775808" = None
  ∧ strconv.ParseInt "" = None
  ∧ strconv.ParseInt "-" = None
  ∧ strconv.ParseInt "1_000" = None
  ∧ strconv.ParseInt " 1" = None
  ∧ strconv.ParseInt "12:30" = None.
Proof. repeat split; reflexivity. Qed.

(** ** Members *)

Lemma Members_run scan mget now w :
  Members scan mget now w =
  match Members_result (heartbeatTimeout (self w)) scan mget now with
  | Ok l => Ok (l, mkWorld (self w) (trace w ++ Members_log scan mget))
  | Panic e => Panic e
  end.
Proof.
  destruct w as [p t]. unfold Members, Members_result, Members_log. run.
  destruct scan as [e|members]; run; [done|].
  destruct (Nat.eqb (length members) 0); run.
  { by rewrite app_nil_r. }
  destruct (bool_decide (mget_err mget ≠ None)); run;
    destruct (Members_loop _ _ _ _ _ _); run; try done.
  by rewrite app_nil_r.
Qed.

Lemma Members_loop_live timeout vals now members :
  ∀ k peers,
    (∀ j, (j < length members)%nat → is_Some (vals !! (k + j)%nat)) →
    (∀ j v, (j < length members)%nat → vals !! (k + j)%nat = Some (Some v) →
            is_Some (strconv.ParseInt v)) →
    Members_loop timeout vals now k members peers
    = Ok (peers ++ live_keys timeout vals now k members).
Proof.
  induction members as [|key rest IH]; intros k peers Hans Hparse; simpl.
  { by rewrite app_nil_r. }
  destruct (Hans 0%nat) as [v Hv]; [simpl; lia|].
  rewrite Nat.add_0_r in Hv. rewrite Hv. simpl.
  assert (Hrest : ∀ j, (j < length rest)%nat → is_Some (vals !! (S k + j)%nat)).
  { intros j Hj. replace (S k + j)%nat with (k + S j)%nat by lia.
    apply Hans. simpl. lia. }
  assert (Hprest : ∀ j v, (j < length rest)%nat →
            vals !! (S k + j)%nat = Some (Some v) → is_Some (strconv.ParseInt v)).
  { intros j v' Hj Hv'. apply (Hparse (S j) v'); [simpl; lia|].
    by replace (k + S j)%nat with (S k + j)%nat by lia. }
  destruct v as [s|]; simpl; [|by apply IH].
  destruct (Hparse 0%nat s) as [ts Hts]; [simpl; lia|by rewrite Nat.add_0_r|].
  rewrite Hts.
  unfold time.Before, time.Add.
  destruct (Z.ltb_spec (time.Unix ts 0) (now k + - timeout)),
           (Z.leb_spec (now k - timeout) (time.Unix ts 0)); try lia.
  - by apply IH.
  - rewrite IH by done. by rewrite <- app_assoc.
Qed.


Lemma live_keys_elem_of timeout vals now keys :
  ∀ k x,
    x ∈ live_keys timeout vals now k keys ↔
    ∃ j v ts, keys !! j = Some x ∧ vals !! (k + j)%nat = Some (Some v)
              ∧ strconv.ParseInt v = Some ts
              ∧ now (k + j)%nat - timeout ≤ time.Unix ts 0.
Proof.
  induction keys as [|key rest IH]; intros k x; simpl.
  { split; [by intros ?%elem_of_nil|]. by intros (j & ? & ? & ? & _). }
  rewrite elem_of_app, IH. split.
  - intros [Hx|(j & v & ts & Hj & Hv & Hp & Hle)].
    + unfold fresh in Hx. destruct (vals !! k) as [[v|]|] eqn:Hv; simpl in Hx;
        try by apply elem_of_nil in Hx.
      destruct (strconv.ParseInt v) as [ts|] eqn:Hp; [|by apply elem_of_nil in Hx].
      destruct (Z.leb_spec (now k - timeout) (time.Unix ts 0));
        [|by apply elem_of_nil in Hx].
      apply list_elem_of_singleton in Hx as ->.
      exists 0%nat, v, ts. by rewrite Nat.add_0_r.
    + exists (S j), v, ts. by replace (k + S j)%nat with (S k + j)%nat by lia.
  - intros (j & v & ts & Hj & Hv & Hp & Hle). destruct j as [|j].
    + left. simpl in Hj. injection Hj as ->. rewrite Nat.add_0_r in Hv, Hle.
      unfold fresh. rewrite Hv. simpl. rewrite Hp.
      destruct (Z.leb_spec (now k - timeout) (time.Unix ts 0)); [|lia].
      by apply list_elem_of_singleton.
    + right. exists j, v, ts.
      by replace (S k + j)%nat with (k + S j)%nat by lia.
Qed.

Lemma live_keys_sublist timeout vals now keys :
  ∀ k, live_keys timeout vals now k keys `sublist_of` keys.
Proof.
  induction keys as [|key rest IH]; intros k; simpl; [constructor|].
  destruct (fresh _ _ _); simpl.
  - by apply sublist_skip.
  - by apply sublist_cons.
Qed.

Lemma Members_loop_Ok timeout vals now members :
  ∀ k peers r,
    Members_loop timeout vals now k members peers = Ok r →
    r = peers ++ live_keys timeout vals now k members.
Proof.
  induction members as [|key rest IH]; intros k peers r; simpl.
  { intros [= <-]. by rewrite app_nil_r. }
  destruct (vals !! k) as [[v|]|]; simpl; [| by apply IH | done].
  unfold fresh. destruct (strconv.ParseInt v) as [ts|]; [|done].
  unfold time.Before, time.Add.
  destruct (Z.ltb_spec (time.Unix ts 0) (now k + - timeout)),
           (Z.leb_spec (now k - timeout) (time.Unix ts 0)); try lia.
  - by apply IH.
  - intros ->%IH. by rewrite <- app_assoc.
Qed.

Lemma Members_result_Ok timeout scan mget now l :
  Members_result timeout scan mget now = Ok l →
  l = sortStrings (live_keys timeout (mget_val mget) now 0 (scanned scan)).
Proof.
  unfold Members_result. destruct scan as [e|members]; simpl.
  { by intros [= <-]. }
  destruct members as [|m ms]; [by intros [= <-]|].
  change (Nat.eqb (length (m :: ms)) 0) with false. cbv iota.
  destruct (Members_loop _ _ _ _ _ _) as [peers|] eqn:Hloop; [|done].
  intros [= <-]. by apply Members_loop_Ok in Hloop as ->.
Qed.

Lemma Members_result_returns timeout scan mget now :
  answered (scanned scan) (mget_val mget) →
  parseable (scanned scan) (mget_val mget) →
  Members_result timeout scan mget now
  = Ok (sortStrings (live_keys timeout (mget_val mget) now 0 (scanned scan))).
Proof.
  intros Hans Hparse. unfold Members_result.
  destruct scan as [e|members]; simpl in *; [done|].
  destruct members as [|m ms]; [done|].
  change (Nat.eqb (length (m :: ms)) 0) with false. cbv iota.
  rewrite (Members_loop_live timeout (mget_val mget) now (m :: ms) 0 []); [done|..].
  - intros j Hj. apply lookup_lt_is_Some. unfold answered in Hans. simpl in *. lia.
  - intros j v Hj Hv. by apply (Hparse j v).
Qed.

Lemma wrap_int_small z : - 2 ^ 63 ≤ z < 2 ^ 63 → wrap_int z = z.
Proof. intros Hz. unfold wrap_int. rewrite Z.mod_small; lia. Qed.

Lemma Unix_seconds sec :
  - 2 ^ 63 ≤ sec ≤ maxUnixSecond → time.Unix sec 0 = sec * time.Second.
Proof.
  unfold maxUnixSecond, time.Unix, time.unixToInternal. intros Hsec.
  change (0 / time.Second) with 0. change (0 mod time.Second) with 0.
  rewrite wrap_int_small by lia. lia.
Qed.

Lemma live_keys_timely timeout vals now keys :
  ∀ k,
    (∀ j v ts, (j < length keys)%nat → vals !! (k + j)%nat = Some (Some v) →
               strconv.ParseInt v = Some ts → ts ≤ maxUnixSecond) →
    live_keys timeout vals now k keys = timely_keys timeout vals now k keys.
Proof.
  induction keys as [|key rest IH]; intros k Hrep; [done|]. simpl.
  rewrite IH.
  - f_equal. unfold fresh, timely.
    destruct (vals !! k) as [[v|]|] eqn:Hv; simpl; try done.
    destruct (strconv.ParseInt v) as [ts|] eqn:Hts; [|done].
    rewrite Unix_seconds; [done|]. split.
    + by apply ParseInt_int64 in Hts as [? _].
    + apply (Hrep 0%nat v ts); [simpl; lia|by rewrite Nat.add_0_r|done].
  - intros j v ts Hj Hv. apply (Hrep (S j) v ts); [simpl; lia|].
    by replace (k + S j)%nat with (S k + j)%nat by lia.
Qed.

(** C2, as amended: when MGET answered every key SCAN returned and every
    value present parses as decimal integer seconds, to a second that
    [time.Unix] takes without wrapping around, [Members] returns exactly
    the keys whose value is present and, parsed, not earlier than the
    clock minus the heartbeat timeout, sorted lexicographically; in
    particular it returns the empty list when SCAN fails or returns no
    keys. *)
Theorem Members_returns_live_keys_sorted (w : World) (scan : ScanReply)
    (mget : MGetReply) (now : nat → time.Time) :
  answered (scanned scan) (mget_val mget) →
  parseable (scanned scan) (mget_val mget) →
  representable (scanned scan) (mget_val mget) →
  let timeout := heartbeatTimeout (self w) in
  let vals := mget_val mget in
  ∃ l, Members scan mget now w
       = Ok (l, mkWorld (self w) (trace w ++ Members_log scan mget))
     ∧ Sorted String.le l
     ∧ l ≡ₚ timely_keys timeout vals now 0 (scanned scan)
     ∧ (∀ x, x ∈ l ↔
          ∃ i v ts, scanned scan !! i = Some x ∧ vals !! i = Some (Some v)
                    ∧ strconv.ParseInt v = Some ts
                    ∧ now i - timeout ≤ ts * time.Second)
     ∧ (scanned scan = [] → l = []).
Proof.
  intros Hans Hparse Hrep timeout vals.
  exists (sortStrings (live_keys timeout vals now 0 (scanned scan))).
  split; [|split; [|split; [|split]]].
  - rewrite Members_run. subst timeout vals.
    by rewrite Members_result_returns.
  - apply sortStrings_Sorted.
  - rewrite sortStrings_Permutation, live_keys_timely; [done|].
    intros j v ts Hj Hv Hts. by apply (Hrep j v ts).
  - intros x. rewrite sortStrings_elem_of, live_keys_elem_of.
    split; intros (i & v & ts & Hi & Hv & Hts & Hle); exists i, v, ts;
      (split; [done|]); (split; [done|]); (split; [done|]);
      simpl in Hv, Hle |- *;
      (rewrite Unix_seconds in *;
       [done| split;
              [by apply ParseInt_int64 in Hts as [? _]
              |apply (Hrep i v ts); [by eapply lookup_lt_Some|done|done]]]).
  - by intros ->.
Qed.

Lemma Members_returns_live_keys_sorted_witness :
  ∃ l, Members (ScanKeys ["am:peer-b"; "am:peer-c"; "am:peer-a"])
               (mkMGet None [Some "1000"; Some "900"; Some "990"])
               (clockAt 1050) worldA
       = Ok (l, worldA) ∧ l = ["am:peer-a"; "am:peer-b"].
Proof.
  destruct (Members_returns_live_keys_sorted worldA
              (ScanKeys ["am:peer-b"; "am:peer-c"; "am:peer-a"])
              (mkMGet None [Some "1000"; Some "900"; Some "990"])
              (clockAt 1050)) as (l & Hrun & _).
  - unfold answered. simpl. lia.
  - intros i v Hi Hv. simpl in Hi.
    destruct i as [|[|[|i]]]; simpl in Hv; [| | |lia];
      injection Hv as <-; by eexists.
  - intros i v ts Hi Hv Hts. simpl in Hi.
    destruct i as [|[|[|i]]]; simpl in Hv; [| | |lia];
      injection Hv as <-; vm_compute in Hts; injection Hts as <-; by vm_compute.
  - exists l. split; [exact Hrun|].
    vm_compute in Hrun. by injection Hrun as <-.
Defined.

(** C2 as stated fails: a key whose value is present but is not a decimal
    integer makes [Members] panic instead of returning the other keys;
    and a key whose value parses to a second above the largest one that
    [time.Unix] represents is left out, although that second is not
    earlier than the clock minus the timeout. *)
Lemma Members_malformed_value_no_list :
  Members (ScanKeys ["am:peer-a"; "am:peer-b"])
          (mkMGet None [Some "1000"; Some "soon"]) (clockAt 1050) worldA
  = Panic "strconv.ParseInt: parsing failed"
  ∧ live_keys (heartbeatTimeout peerA) [Some "1000"; Some "soon"] (clockAt 1050) 0
              ["am:peer-a"; "am:peer-b"] = ["am:peer-a"]
  ∧ Members (ScanKeys ["am:peer-b"]) (mkMGet None [Some "9223371974719179008"])
            (clockAt 1050) worldA
    = Ok ([], worldA)
  ∧ timely_keys (heartbeatTimeout peerA) [Some "9223371974719179008"]
                (clockAt 1050) 0 ["am:peer-b"] = ["am:peer-b"].
Proof. repeat split; reflexivity. Qed.

(** C4, as amended: the list [Members] returns is lexicographically
    sorted, and it has no duplicate names when the SCAN result has no
    duplicate keys. *)
Theorem Members_sorted_NoDup (w w' : World) (scan : ScanReply) (mget : MGetReply)
    (now : nat → time.Time) (l : list string) :
  Members scan mget now w = Ok (l, w') →
  Sorted String.le l ∧ (NoDup (scanned scan) → NoDup l).
Proof.
  rewrite Members_run.
  destruct (Members_result _ _ _ _) as [l0|] eqn:Hres; [|done].
  intros [= <- _]. apply Members_result_Ok in Hres as ->. split.
  - apply sortStrings_Sorted.
  - intros Hnd. rewrite sortStrings_Permutation.
    eapply sublist_NoDup; [done|apply live_keys_sublist].
Qed.

Lemma Members_sorted_NoDup_witness :
  Sorted String.le ["am:peer-a"; "am:peer-b"]
  ∧ (NoDup ["am:peer-b"; "am:peer-c"; "am:peer-a"]
     → NoDup ["am:peer-a"; "am:peer-b"]).
Proof.
  apply (Members_sorted_NoDup worldA worldA
           (ScanKeys ["am:peer-b"; "am:peer-c"; "am:peer-a"])
           (mkMGet None [Some "1000"; Some "900"; Some "990"])
           (clockAt 1050)).
  reflexivity.
Defined.

(** C4 as stated fails: a key that SCAN returns twice is returned twice. *)
Lemma Members_keeps_duplicates :
  Members (ScanKeys ["am:peer-a"; "am:peer-b"; "am:peer-a"])
          (mkMGet None [Some "1000"; Some "1000"; Some "1000"])
          (clockAt 1050) worldA
  = Ok (["am:peer-a"; "am:peer-a"; "am:peer-b"], worldA)
  ∧ ¬ NoDup ["am:peer-a"; "am:peer-a"; "am:peer-b"].
Proof.
  split; [reflexivity|].
  intros Hnd. apply NoDup_cons in Hnd as [Hnotin _].
  apply Hnotin. by left.
Qed.



(** ** Position *)

Lemma Position_loop_first self_name members :
  ∀ k i,
    members !! i = Some self_name →
    (∀ j, (j < i)%nat → members !! j ≠ Some self_name) →
    Position_loop self_name k members = Some (k + i)%nat.
Proof.
  induction members as [|peer rest IH]; intros k i Hi Hfirst; [done|].
  simpl. destruct (String.eqb_spec peer self_name) as [->|Hne].
  - destruct i as [|i]; [by rewrite Nat.add_0_r|].
    by destruct (Hfirst 0%nat); [lia|].
  - destruct i as [|i]; [simpl in Hi; congruence|].
    rewrite (IH (S k) i); [f_equal; lia|done|].
    intros j Hj. apply (Hfirst (S j)). lia.
Qed.

Lemma Position_loop_absent self_name members :
  ∀ k, self_name ∉ members → Position_loop self_name k members = None.
Proof.
  induction members as [|peer rest IH]; intros k Hnotin; [done|].
  simpl. apply not_elem_of_cons in Hnotin as [Hne Hrest].
  destruct (String.eqb_spec peer self_name) as [->|_]; [done|by apply IH].
Qed.

(** C3, as amended: with the list [Members] returned, [Position] (a)
    returns the cached position and leaves the cache alone when the list
    is empty and the position was fetched within the validity window; (b)
    returns the index of the first occurrence of the peer's name, and
    stores it with the time of the clock, when the name occurs in the
    list; (c) returns 0 and leaves the cache alone when the name is absent
    and the list is not empty or the cache has expired. *)
Theorem Position_cases (w w1 : World) (scan : ScanReply) (mget : MGetReply)
    (now : nat → time.Time) (nowCheck nowFound : time.Time)
    (members : list string) :
  Members scan mget now w = Ok (members, w1) →
  let p := self w in
  let run := Position scan mget now nowCheck nowFound w in
  let valid :=
    time.After (positionFetchedAt p) (time.Add nowCheck (- positionValidFor p)) in
  (members = [] → valid = true →
   run = Ok (position p,
             mkWorld p (trace w1 ++ [Log Warn "failed to fetch position from redis, falling back to last know position"])))
  ∧ (∀ i, members !! i = Some (name p) →
          (∀ j, (j < i)%nat → members !! j ≠ Some (name p)) →
          run = Ok (Z.of_nat i,
                    mkWorld (set_position (Z.of_nat i) nowFound p)
                            (trace w1 ++ [Log Debug "cluster position found"])))
  ∧ (name p ∉ members → members ≠ [] ∨ valid = false →
     run = Ok (0, mkWorld p (trace w1))).
Proof.
  intros Hm p run valid. subst run. unfold Position. run. rewrite Hm.
  assert (Hself : self w1 = p).
  { rewrite Members_run in Hm. destruct (Members_result _ _ _ _); [|done].
    by injection Hm as _ <-. }
  unfold Position_of. run. rewrite Hself. fold valid.
  split; [|split].
  - intros -> Hvalid. simpl. rewrite Hvalid. simpl. by rewrite Hself.
  - intros i Hi Hfirst.
    assert (Hne : Nat.eqb (length members) 0 = false).
    { destruct members; [done|reflexivity]. }
    rewrite Hne. simpl.
    by rewrite (Position_loop_first (name p) members 0 i Hi Hfirst).
  - intros Hnotin Hcase.
    assert (Hcond : Nat.eqb (length members) 0 && valid = false).
    { destruct Hcase as [Hne| ->]; [by destruct members|by rewrite andb_false_r]. }
    rewrite Hcond. rewrite (Position_loop_absent _ _ _ Hnotin).
    rewrite <- Hself. by destruct w1.
Qed.

Lemma Position_cases_witness :
  Position (ScanErr "connection refused") (mkMGet None []) (clockAt 1050)
           (time.Unix 1050 0) (time.Unix 1051 0)
           (mkWorld (set_position 2 (time.Unix 1040 0) peerB) [])
  = Ok (2, mkWorld (set_position 2 (time.Unix 1040 0) peerB)
                   [Log Error "error getting keys from redis";
                    Log Warn "failed to fetch position from redis, falling back to last know position"])
  ∧ Position (ScanKeys ["peer-a"; "peer-c"; "peer-b"])
             (mkMGet None [Some "1000"; Some "1000"; Some "1000"])
             (clockAt 1050) (time.Unix 1050 0) (time.Unix 1051 0) worldB
    = Ok (1, mkWorld (set_position 1 (time.Unix 1051 0) peerB)
                     [Log Debug "cluster position found"])
  ∧ Position (ScanKeys ["peer-a"]) (mkMGet None [Some "1000"])
             (clockAt 1050) (time.Unix 1050 0) (time.Unix 1051 0) worldB
    = Ok (0, worldB).
Proof.
  split; [|split].
  - destruct (Position_cases
                (mkWorld (set_position 2 (time.Unix 1040 0) peerB) [])
                (mkWorld (set_position 2 (time.Unix 1040 0) peerB)
                         [Log Error "error getting keys from redis"])
                (ScanErr "connection refused") (mkMGet None []) (clockAt 1050)
                (time.Unix 1050 0) (time.Unix 1051 0) [] eq_refl)
      as (Hcached & _ & _).
    apply Hcached; reflexivity.
  - destruct (Position_cases worldB worldB
                (ScanKeys ["peer-a"; "peer-c"; "peer-b"])
                (mkMGet None [Some "1000"; Some "1000"; Some "1000"])
                (clockAt 1050) (time.Unix 1050 0) (time.Unix 1051 0)
                ["peer-a"; "peer-b"; "peer-c"] eq_refl)
      as (_ & Hfound & _).
    apply (Hfound 1%nat); [reflexivity|].
    intros j Hj. destruct j as [|j]; [discriminate|lia].
  - destruct (Position_cases worldB worldB
                (ScanKeys ["peer-a"]) (mkMGet None [Some "1000"])
                (clockAt 1050) (time.Unix 1050 0) (time.Unix 1051 0)
                ["peer-a"] eq_refl)
      as (_ & _ & Habsent).
    apply Habsent; [|by left].
    intros Hin. apply list_elem_of_singleton in Hin. discriminate.
Defined.

(** C3 as stated fails: when SCAN returns the peer's key twice the name
    occurs at index 1 of the list of members, and [Position] returns 0. *)
Lemma Position_second_occurrence :
  Members (ScanKeys ["peer-b"; "peer-b"]) (mkMGet None [Some "1000"; Some "1000"])
          (clockAt 1050) worldB
  = Ok (["peer-b"; "peer-b"], worldB)
  ∧ ["peer-b"; "peer-b"] !! 1%nat = Some (name peerB)
  ∧ Position (ScanKeys ["peer-b"; "peer-b"]) (mkMGet None [Some "1000"; Some "1000"])
             (clockAt 1050) (time.Unix 1050 0) (time.Unix 1051 0) worldB
    = Ok (0, mkWorld (set_position 0 (time.Unix 1051 0) peerB)
                     [Log Debug "cluster position found"]).
Proof. repeat split; reflexivity. Qed.

(** ** Registered states *)

Lemma callMerge_run key s data w :
  callMerge key s data w
  = Ok (Merge_err s (merged s) data, merged_world key s data w).
Proof. by destruct w. Qed.

Lemma LocalState_parts_run kvs :
  ∀ parts w,
    LocalState_parts kvs parts w
    = Ok (parts ++ (part_of <$> kvs),
          mkWorld (self w) (trace w ++ marshal_logs kvs)).
Proof.
  induction kvs as [|[key s] rest IH]; intros parts w.
  { destruct w. simpl. by rewrite !app_nil_r. }
  simpl. unfold MarshalBinary at 1. destruct (MarshalBinary_ret s (merged s)) as [b err] eqn:Hm.
  assert (Hb : part_of (key, s) = mkPart key b).
  { unfold part_of, MarshalBinary. simpl. by rewrite Hm. }
  assert (He : (MarshalBinary s).2 = err).
  { unfold MarshalBinary. by rewrite Hm. }
  rewrite Hb, He. run.
  destruct (bool_decide (err ≠ None)); run; rewrite IH; simpl;
    by rewrite <- !app_assoc.
Qed.

Section PeerProperties.
Context {codec : Proto}.
Variable mapRange : gmap string State → list (string * State).

Lemma LocalState_all_run w :
  LocalState_all mapRange w
  = Ok (mkFullState (part_of <$> mapRange (states (self w))),
        mkWorld (self w) (trace w ++ marshal_logs (mapRange (states (self w))))).
Proof. unfold LocalState_all. run. by rewrite LocalState_parts_run. Qed.

Lemma LocalState_run w :
  LocalState mapRange w
  = Ok ((Marshal_FullState (LocalState_envelope (mapRange (states (self w))))).1,
        mkWorld (self w) (trace w ++ LocalState_trace (mapRange (states (self w))))).
Proof.
  unfold LocalState. unfold mbind at 1, M_bind at 1. rewrite LocalState_all_run.
  unfold LocalState_trace, LocalState_envelope.
  destruct (Marshal_FullState _) as [b err]. run.
  destruct (bool_decide (err ≠ None)); run; by rewrite <- !app_assoc.
Qed.

(** C5, as amended: whatever the walk of the registry, the full-state
    envelope that [LocalState] marshals and returns has one part per
    registered state, with the state's key and the bytes its
    [MarshalBinary] returned, whether or not it also returned an error. *)
Theorem LocalState_one_part_per_state (w : World) :
  mapRange (states (self w)) ≡ₚ map_to_list (states (self w)) →
  ∃ all w',
    LocalState_all mapRange w = Ok (all, w')
    ∧ LocalState mapRange w
      = Ok ((Marshal_FullState all).1,
            mkWorld (self w)
                    (trace w ++ LocalState_trace (mapRange (states (self w)))))
    ∧ Parts all = part_of <$> mapRange (states (self w))
    ∧ NoDup (Key <$> Parts all)
    ∧ (∀ k, k ∈ Key <$> Parts all ↔ is_Some (states (self w) !! k))
    ∧ (∀ part, part ∈ Parts all ↔
         ∃ s, states (self w) !! Key part = Some s
              ∧ Data part = (MarshalBinary s).1).
Proof.
  intros Hperm. rewrite LocalState_all_run, LocalState_run. eexists _, _.
  split; [done|]. split; [done|]. split; [done|]. simpl.
  assert (Hkeys : Key <$> (part_of <$> mapRange (states (self w)))
                  ≡ₚ (map_to_list (states (self w))).*1).
  { rewrite <- list_fmap_compose. rewrite Hperm. done. }
  split; [|split].
  - rewrite Hkeys. apply NoDup_fst_map_to_list.
  - intros k. rewrite Hkeys. rewrite list_elem_of_fmap. split.
    + intros ([k' s] & -> & Hin). apply elem_of_map_to_list in Hin. by eexists.
    + intros [s Hs]. exists (k, s). split; [done|]. by apply elem_of_map_to_list.
  - intros part. rewrite list_elem_of_fmap. split.
    + intros ([k s] & -> & Hin). rewrite Hperm in Hin.
      apply elem_of_map_to_list in Hin. by exists s.
    + intros (s & Hs & Hd). exists (Key part, s). split.
      * destruct part as [k d]. simpl in *. unfold part_of. simpl. by rewrite Hd.
      * rewrite Hperm. by apply elem_of_map_to_list.
Qed.

(** *** The full-state receive loop *)

Lemma mergeParts_unknown w part rest :
  states (self w) !! Key part = None →
  mergeParts (part :: rest) w = mergeParts rest (logged (Log Warn "received") w).
Proof. intros Hnone. simpl. run. by rewrite Hnone. Qed.

Lemma mergeParts_merged w part rest s :
  states (self w) !! Key part = Some s →
  Merge_err s (merged s) (Data part) = None →
  mergeParts (part :: rest) w
  = mergeParts rest (merged_world (Key part) s (Data part) w).
Proof.
  intros Hs Hok. simpl. unfold mbind at 1, M_bind at 1, getPeer.
  rewrite Hs. unfold mbind at 1, M_bind at 1. rewrite callMerge_run, Hok.
  by rewrite bool_decide_false by (intros ?; congruence).
Qed.

Lemma mergeParts_error w part rest s e :
  states (self w) !! Key part = Some s →
  Merge_err s (merged s) (Data part) = Some e →
  mergeParts (part :: rest) w
  = Ok (RangeReturn,
        logged (Log Warn "error merging the received remote state")
               (merged_world (Key part) s (Data part) w)).
Proof.
  intros Hs Herr. simpl. unfold mbind at 1, M_bind at 1, getPeer.
  rewrite Hs. unfold mbind at 1, M_bind at 1. rewrite callMerge_run, Herr.
  by rewrite bool_decide_true by done.
Qed.




(** *** The full-state request receive loop *)

Lemma fullStateSyncPublish_run pubErr w :
  fullStateSyncPublish mapRange pubErr w
  = Ok (tt, mkWorld (self w)
              (trace w ++ fullStateSyncPublish_trace (self w)
                            (mapRange (states (self w))) pubErr)).
Proof.
  unfold fullStateSyncPublish. unfold mbind at 1, M_bind at 1.
  rewrite LocalState_run. unfold fullStateSyncPublish_trace. run.
  destruct (bool_decide (pubErr ≠ None)); run; by rewrite <- !app_assoc.
Qed.

Lemma publishes_app t u : publishes (t ++ u) = publishes t ++ publishes u.
Proof. apply omap_app. Qed.

Lemma publishes_marshal_logs kvs : publishes (marshal_logs kvs) = [].
Proof.
  induction kvs as [|kv rest IH]; [done|].
  unfold marshal_logs. simpl. fold (marshal_logs rest).
  rewrite publishes_app, IH. by destruct (bool_decide _).
Qed.

Lemma publishes_fullStateSyncPublish_trace p kvs pubErr :
  publishes (fullStateSyncPublish_trace p kvs pubErr)
  = [(withPrefix p fullStateChannel,
      (Marshal_FullState (LocalState_envelope kvs)).1)].
Proof.
  unfold fullStateSyncPublish_trace, LocalState_trace.
  destruct (Marshal_FullState _) as [b err].
  rewrite !publishes_app, publishes_marshal_logs.
  by destruct (bool_decide (err ≠ None)), (bool_decide (pubErr ≠ None)).
Qed.

(** C8: for a message received on the request channel, when the payload
    is the peer's own name nothing happens, so nothing is published;
    otherwise what the turn adds to the trace holds one PUBLISH, of the
    local state on the full-state channel; either way the loop goes on. *)
Theorem fullStateReq_publishes_once_unless_own (w : World) (payload : string)
    (pubErr : option string) (evs : list (LoopEvent * option string)) :
  (payload = name (self w) →
   fullStateReqReceive_message mapRange payload pubErr w = Ok (tt, w)
   ∧ fullStateReqReceiveLoop mapRange ((Receive (Message payload), pubErr) :: evs) w
     = fullStateReqReceiveLoop mapRange evs w)
  ∧ (payload ≠ name (self w) →
     ∃ added,
       let w' := mkWorld (self w) (trace w ++ added) in
       fullStateReqReceive_message mapRange payload pubErr w = Ok (tt, w')
       ∧ publishes added
         = [(withPrefix (self w) fullStateChannel,
             (Marshal_FullState
                (LocalState_envelope (mapRange (states (self w))))).1)]
       ∧ fullStateReqReceiveLoop mapRange
           ((Receive (Message payload), pubErr) :: evs) w
         = fullStateReqReceiveLoop mapRange evs w').
Proof.
  split.
  - intros ->. simpl. unfold fullStateReqReceive_message. run.
    by rewrite String.eqb_refl.
  - intros Hne%String.eqb_neq.
    exists (fullStateSyncPublish_trace (self w) (mapRange (states (self w))) pubErr).
    assert (Hmsg : fullStateReqReceive_message mapRange payload pubErr w
                   = fullStateSyncPublish mapRange pubErr w).
    { unfold fullStateReqReceive_message. run. by rewrite Hne. }
    simpl. unfold mbind at 1, M_bind at 1.
    rewrite Hmsg, fullStateSyncPublish_run.
    by rewrite publishes_fullStateSyncPublish_trace.
Qed.

(** *** The delta receive loop *)

(** C10: for a message delivered on a state's channel, the first two
    things the turn adds to the trace are the update of the
    messages-received counter and of the received-size counter, before
    anything that depends on decoding the envelope, and no counter is
    touched after; so they are updated when the envelope does not decode,
    when its key is not registered and when the merge returns an error. *)
Theorem receiveLoop_counts_before_decoding (w : World) (payload : string) :
  ∃ rest w',
    receiveLoop_message payload w = Ok (tt, w')
    ∧ trace w' = trace w
                 ++ [CounterAdd messagesReceived update 1;
                     CounterAdd messagesReceivedSize update (len payload)]
                 ++ rest
    ∧ Forall (λ e, is_counter e = false) rest
    ∧ (Unmarshal_Part payload = None →
       rest = [Log Warn "error decoding the received broadcast message"])
    ∧ (∀ part, Unmarshal_Part payload = Some part →
               states (self w) !! Key part = None → rest = [])
    ∧ (∀ part s e, Unmarshal_Part payload = Some part →
                   states (self w) !! Key part = Some s →
                   Merge_err s (merged s) (Data part) = Some e →
                   rest = [MergeCall (Key part) (Data part);
                           Log Warn "error merging the received broadcast message"])
    ∧ (∀ evs, receiveLoop (Receive (Message payload) :: evs) w = receiveLoop evs w').
Proof.
  assert (Hloop : ∀ w', receiveLoop_message payload w = Ok (tt, w') →
            ∀ evs, receiveLoop (Receive (Message payload) :: evs) w
                   = receiveLoop evs w').
  { intros w' Hmsg evs. simpl. unfold mbind at 1, M_bind at 1. by rewrite Hmsg. }
  unfold receiveLoop_message in *. revert Hloop. run.
  destruct (Unmarshal_Part payload) as [part|]; run.
  - destruct (states (self w) !! Key part) as [s|] eqn:Hs; run.
    + destruct (Merge_err s (merged s) (Data part)) as [e|] eqn:Hm; run.
      * intros Hloop. eexists [_; _], _. split; [done|]. simpl.
        split; [by rewrite <- !app_assoc|]. split; [by repeat constructor|].
        repeat split; try by apply Hloop.
        all: by intros; simplify_eq.
      * intros Hloop. eexists [_], _. split; [done|]. simpl.
        split; [by rewrite <- !app_assoc|]. split; [by repeat constructor|].
        repeat split; try by apply Hloop.
        all: by intros; simplify_eq.
    + intros Hloop. eexists [], _. split; [done|]. simpl.
      split; [by rewrite <- !app_assoc|]. split; [by constructor|].
      repeat split; try by apply Hloop.
      all: by intros; simplify_eq.
  - intros Hloop. eexists [_], _. split; [done|]. simpl.
    split; [by rewrite <- !app_assoc|]. split; [by repeat constructor|].
    repeat split; try by apply Hloop.
    all: by intros; simplify_eq.
Qed.

(** *** State registration and broadcast *)

Lemma AddState_run key state w :
  AddState key state w
  = Ok (mkChannel (withPrefix (self w) key) update,
        mkWorld (set_subs (<[key := withPrefix (self w) key]> (subs (self w)))
                   (set_states (<[key := state]> (states (self w))) (self w)))
                (trace w ++ [Subscribe (withPrefix (self w) key);
                             Go (ReceiveLoop key (withPrefix (self w) key))])).
Proof. destruct w. unfold AddState. run. by rewrite <- !app_assoc. Qed.

Lemma Broadcast_run c b payload w :
  Marshal_Part (mkPart (channel c) b) = (payload, None) →
  Broadcast c b None w
  = Ok (tt, mkWorld (self w)
              (trace w ++ [Publish (channel c) payload;
                           CounterAdd messagesSent (msgType c) 1;
                           CounterAdd messagesSentSize (msgType c) (len payload)])).
Proof. intros Hm. unfold Broadcast. rewrite Hm. run. by rewrite <- !app_assoc. Qed.

(** The envelope [Broadcast] marshals carries the channel name, that is
    the prefix followed by the state key. *)
Lemma Broadcast_envelope_key key state b payload w c w1 :
  AddState key state w = Ok (c, w1) →
  Marshal_Part (mkPart (prefix (self w) +:+ key) b) = (payload, None) →
  ∃ w2, Broadcast c b None w1 = Ok (tt, w2)
        ∧ publishes (trace w2)
          = publishes (trace w) ++ [(prefix (self w) +:+ key, payload)].
Proof.
  rewrite AddState_run. intros [= <- <-] Hm.
  eexists. split; [by apply Broadcast_run|]. simpl.
  by rewrite !publishes_app, app_nil_r.
Qed.

(** Without a key prefix the envelope key is the state key, and a peer
    that has the state registered merges the broadcast payload. *)
Lemma Broadcast_merged_without_prefix key state b payload w c w1 wr s :
  prefix (self w) = "" →
  AddState key state w = Ok (c, w1) →
  Marshal_Part (mkPart key b) = (payload, None) →
  Unmarshal_Part payload = Some (mkPart key b) →
  states (self wr) !! key = Some s →
  ∃ w2 wr',
    Broadcast c b None w1 = Ok (tt, w2)
    ∧ publishes (trace w2) = publishes (trace w) ++ [(key, payload)]
    ∧ receiveLoop_message payload wr = Ok (tt, wr')
    ∧ merges (trace wr') = merges (trace wr) ++ [(key, b)].
Proof.
  intros Hprefix Hadd Hm Hu Hs.
  destruct (Broadcast_envelope_key key state b payload w c w1 Hadd)
    as (w2 & Hb & Hp); [by rewrite Hprefix|].
  rewrite Hprefix in Hp.
  unfold receiveLoop_message. run. rewrite Hu. simpl. rewrite Hs. run.
  exists w2.
  destruct (bool_decide _); eexists; (split; [done|]); (split; [exact Hp|]);
    (split; [done|]); simpl;
    unfold merges; rewrite !omap_app; simpl; by rewrite !app_nil_r.
Qed.

End PeerProperties.

(** ** Settle *)

Lemma unchanged_0 a h : unchanged (a :: h) 0.
Proof. by exists a. Qed.

Lemma unchanged_cons n h k :
  unchanged (n :: h) (S k) ↔ head h = Some n ∧ unchanged h k.
Proof.
  unfold unchanged. split.
  - intros [a Ha]. simpl in Ha. injection Ha as -> Ha.
    destruct h as [|x h]; [done|]. simpl in Ha. injection Ha as -> Ha.
    split; [done|]. exists a. simpl. by rewrite Ha.
  - intros [Hhd [a Ha]]. destruct h as [|x h]; [done|].
    simpl in Hhd. injection Hhd as ->. simpl in Ha. injection Ha as -> Ha.
    exists a. simpl. by rewrite Ha.
Qed.

Lemma unchanged_S h k : unchanged h (S k) → unchanged h k.
Proof.
  intros [a Ha]. exists a.
  replace (take (S k) h) with (take (S k) (take (S (S k)) h))
    by (rewrite take_take; f_equal; lia).
  rewrite Ha. rewrite take_replicate. f_equal. lia.
Qed.

Lemma unchanged_le h k j : (j ≤ k)%nat → unchanged h k → unchanged h j.
Proof. intros Hle. induction Hle; [done|]. intros Hk%unchanged_S. auto. Qed.

Lemma okay_exact_init : okay_exact [0] 0.
Proof.
  split; [lia|]. split; [apply unchanged_0|].
  intros _ [a Ha]. simpl in Ha. discriminate.
Qed.

Lemma okay_exact_same h n nOkay :
  head h = Some n → okay_exact h nOkay → nOkay < 3 →
  okay_exact (n :: h) (incr nOkay).
Proof.
  intros Hhd (Hrange & Hrun & Hmax) Hlt.
  unfold okay_exact, incr. rewrite wrap_int_small by lia.
  replace (Z.to_nat (nOkay + 1)) with (S (Z.to_nat nOkay)) by lia.
  split; [lia|]. split.
  - by apply unchanged_cons.
  - intros _ [_ Hmore]%unchanged_cons. by apply Hmax.
Qed.

Lemma okay_exact_changed h n nP :
  head h = Some nP → n ≠ nP → okay_exact (n :: h) 0.
Proof.
  intros Hhd Hne. split; [lia|]. split; [apply unchanged_0|].
  intros _ [Hhd' _]%unchanged_cons. congruence.
Qed.

Lemma okay_exact_reached h nOkay :
  okay_exact h nOkay → unchanged h 3 → (NumOkayRequired <=? nOkay) = true.
Proof.
  intros (Hrange & _ & Hmax) H3. unfold NumOkayRequired.
  destruct (Z.leb_spec 3 nOkay); [done|].
  destruct Hmax; [lia|]. apply (unchanged_le h 3); [lia|done].
Qed.

Lemma Settle_loop_timer scan mget now evs nPeers nOkay totalPolls w :
  Settle_loop (TimerFired scan mget now :: evs) nPeers nOkay totalPolls w =
  match Members_result (heartbeatTimeout (self w)) scan mget now with
  | Panic e => Panic e
  | Ok l =>
      let w1 := mkWorld (self w) (trace w ++ Members_log scan mget) in
      let n := Z.of_nat (length l) in
      if NumOkayRequired <=? nOkay then
        Ok (Break, logged (Log Info "gossip settled; proceeding") w1)
      else if n =? nPeers then
        Settle_loop evs n (incr nOkay) (incr totalPolls)
                    (logged (Log Debug "gossip looks settled") w1)
      else
        Settle_loop evs n 0 (incr totalPolls)
                    (logged (Log Info "gossip not settled") w1)
  end.
Proof.
  simpl. unfold mbind at 1, M_bind at 1. rewrite Members_run.
  destruct (Members_result _ _ _ _) as [l|e]; [|done]. simpl.
  destruct (NumOkayRequired <=? nOkay); [done|].
  by destruct (Z.of_nat (length l) =? nPeers).
Qed.

Lemma Settle_loop_ctxDone evs nPeers nOkay totalPolls w :
  Settle_loop (CtxDone :: evs) nPeers nOkay totalPolls w =
  if readyc (self w) then Panic "close of closed channel"
  else Ok (Return,
           mkWorld (set_closed Readyc (self w))
                   (trace w ++ [Log Info "gossip not settled but continuing anyway";
                                Close Readyc])).
Proof.
  simpl. unfold close. run. destruct (readyc (self w)); [done|].
  simpl. by rewrite <- !app_assoc.
Qed.

Lemma Members_log_is_log scan mget :
  Forall (λ e, is_log e = true) (Members_log scan mget).
Proof.
  unfold Members_log. destruct scan as [e|members]; [by repeat constructor|].
  destruct (Nat.eqb _ _); [constructor|].
  destruct (bool_decide _); by repeat constructor.
Qed.

Lemma Settle_loop_inv evs :
  ∀ h nPeers nOkay totalPolls w exit w',
    head h = Some nPeers →
    okay_exact h nOkay →
    Settle_loop evs nPeers nOkay totalPolls w = Ok (exit, w') →
    ∃ logs,
      Forall (λ e, is_log e = true) logs
      ∧ match exit with
        | Break =>
            self w' = self w
            ∧ trace w' = trace w ++ logs
            ∧ ∃ polls final rest cs,
                evs = polls ++ final :: rest
                ∧ observations (self w) polls = Some cs
                ∧ is_Some (observation (self w) final)
                ∧ unchanged (reverse cs ++ h) 3
        | Return =>
            readyc (self w) = false
            ∧ self w' = set_closed Readyc (self w)
            ∧ trace w' = trace w ++ logs ++ [Close Readyc]
            ∧ ∃ polls rest,
                evs = polls ++ CtxDone :: rest
                ∧ is_Some (observations (self w) polls)
        | Blocked =>
            self w' = self w
            ∧ trace w' = trace w ++ logs
            ∧ is_Some (observations (self w) evs)
        end.
Proof.
  induction evs as [|ev evs IH]; intros h nPeers nOkay totalPolls w exit w' Hhd Hex.
  { intros [= <- <-]. exists []. split; [constructor|].
    split; [done|]. split; [by rewrite app_nil_r|]. by eexists. }
  destruct ev as [|scan mget now].
  { rewrite Settle_loop_ctxDone. destruct (readyc (self w)) eqn:Hr; [done|].
    intros [= <- <-]. exists [Log Info "gossip not settled but continuing anyway"].
    split; [by repeat constructor|]. split; [done|]. split; [done|].
    split; [done|]. exists [], evs. split; [done|]. by eexists. }
  rewrite Settle_loop_timer.
  destruct (Members_result _ _ _ _) as [l|e] eqn:Hres; [|done]. cbv zeta.
  assert (Hobs : observation (self w) (TimerFired scan mget now)
                 = Some (Z.of_nat (length l))).
  { simpl. by rewrite Hres. }
  destruct (Z.leb_spec NumOkayRequired nOkay) as [Hge|Hlt].
  { intros [= <- <-].
    exists (Members_log scan mget ++ [Log Info "gossip settled; proceeding"]).
    split.
    { apply Forall_app. split; [apply Members_log_is_log|by repeat constructor]. }
    split; [done|]. split; [simpl; by rewrite <- !app_assoc|].
    exists [], (TimerFired scan mget now), evs, [].
    split; [done|]. split; [done|]. split; [by rewrite Hobs; eexists|].
    simpl. destruct Hex as (Hrange & Hrun & _).
    unfold NumOkayRequired in Hge.
    by replace 3%nat with (Z.to_nat nOkay) by lia. }
  unfold NumOkayRequired in Hlt.
  set (n := Z.of_nat (length l)) in *.
  assert (Hstep : ∀ nOkay' e,
            is_log e = true →
            okay_exact (n :: h) nOkay' →
            Settle_loop evs n nOkay' (incr totalPolls)
              (logged e (mkWorld (self w) (trace w ++ Members_log scan mget)))
            = Ok (exit, w') →
            ∃ logs,
              Forall (λ e, is_log e = true) logs
              ∧ match exit with
                | Break =>
                    self w' = self w
                    ∧ trace w' = trace w ++ logs
                    ∧ ∃ polls final rest cs,
                        TimerFired scan mget now :: evs = polls ++ final :: rest
                        ∧ observations (self w) polls = Some cs
                        ∧ is_Some (observation (self w) final)
                        ∧ unchanged (reverse cs ++ h) 3
                | Return =>
                    readyc (self w) = false
                    ∧ self w' = set_closed Readyc (self w)
                    ∧ trace w' = trace w ++ logs ++ [Close Readyc]
                    ∧ ∃ polls rest,
                        TimerFired scan mget now :: evs = polls ++ CtxDone :: rest
                        ∧ is_Some (observations (self w) polls)
                | Blocked =>
                    self w' = self w
                    ∧ trace w' = trace w ++ logs
                    ∧ is_Some (observations (self w) (TimerFired scan mget now :: evs))
                end).
  { intros nOkay' e He Hex' Hrun.
    destruct (IH (n :: h) n nOkay' (incr totalPolls) _ exit w' eq_refl Hex' Hrun)
      as (logs & Hlogs & Hexit).
    exists (Members_log scan mget ++ [e] ++ logs). split.
    { apply Forall_app. split; [apply Members_log_is_log|].
      apply Forall_app. split; [by repeat constructor|done]. }
    simpl in Hexit. destruct exit.
    - destruct Hexit as (Hself & Htrace & polls & final & rest & cs & -> & Hcs & Hfin & Hun).
      split; [done|]. split; [by rewrite Htrace, <- !app_assoc|].
      exists (TimerFired scan mget now :: polls), final, rest, (n :: cs).
      split; [done|]. split.
      { change (observations (self w) (TimerFired scan mget now :: polls))
          with (match observation (self w) (TimerFired scan mget now),
                      observations (self w) polls with
                | Some c, Some cs => Some (c :: cs)
                | _, _ => None
                end).
        by rewrite Hobs, Hcs. }
      split; [done|]. by rewrite reverse_cons, <- app_assoc.
    - destruct Hexit as (Hr & Hself & Htrace & polls & rest & -> & [cs Hcs]).
      split; [done|]. split; [done|]. split; [by rewrite Htrace, <- !app_assoc|].
      exists (TimerFired scan mget now :: polls), rest. split; [done|].
      exists (n :: cs).
      change (observations (self w) (TimerFired scan mget now :: polls))
        with (match observation (self w) (TimerFired scan mget now),
                    observations (self w) polls with
              | Some c, Some cs => Some (c :: cs)
              | _, _ => None
              end).
      by rewrite Hobs, Hcs.
    - destruct Hexit as (Hself & Htrace & [cs Hcs]).
      split; [done|]. split; [by rewrite Htrace, <- !app_assoc|].
      exists (n :: cs).
      change (observations (self w) (TimerFired scan mget now :: evs))
        with (match observation (self w) (TimerFired scan mget now),
                    observations (self w) evs with
              | Some c, Some cs => Some (c :: cs)
              | _, _ => None
              end).
      by rewrite Hobs, Hcs. }
  destruct (Z.leb_spec 3 nOkay) as [?|_]; [lia|].
  change (NumOkayRequired <=? nOkay) with (3 <=? nOkay).
  destruct (Z.leb_spec 3 nOkay) as [?|_]; [lia|].
  destruct (Z.eqb_spec n nPeers) as [Heq|Hne].
  - apply Hstep; [done|]. apply okay_exact_same; [by rewrite Heq|done|done].
  - apply Hstep; [done|]. by apply okay_exact_changed with nPeers.
Qed.

Lemma observation_timer p ev :
  is_Some (observation p ev) →
  ∃ scan mget now l,
    ev = TimerFired scan mget now
    ∧ Members_result (heartbeatTimeout p) scan mget now = Ok l
    ∧ observation p ev = Some (Z.of_nat (length l)).
Proof.
  destruct ev as [|scan mget now]; simpl; [by intros [? ?]|].
  destruct (Members_result _ _ _ _) as [l|e] eqn:Hres; [|by intros [? ?]].
  intros _. by exists scan, mget, now, l.
Qed.

Lemma Settle_loop_breaks polls :
  ∀ h nPeers nOkay totalPolls w final rest cs,
    head h = Some nPeers →
    okay_exact h nOkay →
    observations (self w) polls = Some cs →
    is_Some (observation (self w) final) →
    unchanged (reverse cs ++ h) 3 →
    ∃ w', Settle_loop (polls ++ final :: rest) nPeers nOkay totalPolls w
          = Ok (Break, w').
Proof.
  induction polls as [|ev polls IH];
    intros h nPeers nOkay totalPolls w final rest cs Hhd Hex Hcs Hfin Hun.
  - injection Hcs as <-. simpl in Hun.
    destruct (observation_timer _ _ Hfin) as (scan & mget & now & l & -> & Hres & _).
    simpl app. rewrite Settle_loop_timer, Hres. cbv zeta.
    rewrite (okay_exact_reached h nOkay Hex Hun). by eexists.
  - simpl in Hcs.
    destruct (observation (self w) ev) as [c|] eqn:Hobs; [|done].
    destruct (observations (self w) polls) as [cs'|] eqn:Hcs'; [|done].
    injection Hcs as <-.
    destruct (observation_timer (self w) ev) as (scan & mget & now & l & -> & Hres & Hc);
      [by rewrite Hobs; eexists|].
    rewrite Hobs in Hc. injection Hc as ->.
    simpl app. rewrite Settle_loop_timer, Hres. cbv zeta.
    destruct (Z.leb_spec NumOkayRequired nOkay) as [_|Hlt]; [by eexists|].
    unfold NumOkayRequired in Hlt.
    rewrite reverse_cons, <- app_assoc in Hun.
    destruct (Z.eqb_spec (Z.of_nat (length l)) nPeers) as [Heq|Hne].
    + eapply (IH (Z.of_nat (length l) :: h));
        [reflexivity| |exact Hcs'|exact Hfin|exact Hun].
      apply okay_exact_same; [by rewrite Heq|done|done].
    + eapply (IH (Z.of_nat (length l) :: h));
        [reflexivity| |exact Hcs'|exact Hfin|exact Hun].
      by apply okay_exact_changed with nPeers.
Qed.

Lemma Settle_loop_cancelled polls :
  ∀ nPeers nOkay totalPolls w w1 rest,
    Settle_loop polls nPeers nOkay totalPolls w = Ok (Blocked, w1) →
    readyc (self w) = false →
    Settle_loop (polls ++ CtxDone :: rest) nPeers nOkay totalPolls w
    = Ok (Return,
          mkWorld (set_closed Readyc (self w1))
                  (trace w1 ++ [Log Info "gossip not settled but continuing anyway";
                                Close Readyc])).
Proof.
  induction polls as [|ev polls IH]; intros nPeers nOkay totalPolls w w1 rest Hrun Hr.
  - injection Hrun as <-. simpl app. by rewrite Settle_loop_ctxDone, Hr.
  - destruct ev as [|scan mget now].
    { rewrite Settle_loop_ctxDone in Hrun. by destruct (readyc (self w)). }
    simpl app. rewrite Settle_loop_timer in *.
    destruct (Members_result _ _ _ _) as [l|e]; [|done]. cbv zeta in *.
    destruct (NumOkayRequired <=? nOkay); [done|].
    destruct (Z.of_nat (length l) =? nPeers); by apply IH.
Qed.

Lemma Settle_run evs pubErr w :
  Settle evs pubErr w =
  match Settle_loop evs 0 0 0 (logged (Log Info "Waiting for gossip to settle...") w) with
  | Ok (Break, w1) =>
      if readyc (self w1) then Panic "close of closed channel"
      else Ok (Break,
               mkWorld (set_closed Readyc (self w1))
                       (trace w1 ++ requestFullState_trace (self w1) pubErr
                                 ++ [Close Readyc]))
  | Ok (exit, w1) => Ok (exit, w1)
  | Panic e => Panic e
  end.
Proof.
  unfold Settle. unfold mbind at 1, M_bind at 1, emit at 1.
  unfold mbind at 1, M_bind at 1. fold (logged (Log Info "Waiting for gossip to settle...") w).
  destruct (Settle_loop _ _ _ _ _) as [[exit w1]|e]; [|done].
  destruct exit; try done.
  unfold requestFullState, requestFullState_trace, close. run.
  destruct (bool_decide (pubErr ≠ None)); run;
    destruct (readyc (self w1)); try done; simpl; by rewrite <- !app_assoc.
Qed.

Lemma publishes_logs logs :
  Forall (λ e, is_log e = true) logs → publishes logs = [].
Proof.
  induction 1 as [|e logs He _ IH]; [done|].
  by destruct e.
Qed.

(** C7: [Settle] leaves by the settled path only after the last three
    polls before the one that leaves each observed an unchanged member
    count, and then publishes the full-state request and, after it, closes
    the readiness gate; such a run of polls followed by one more tick does
    settle; and when the context is done while the loop is still waiting,
    [Settle] closes the gate and returns having published nothing. *)
Theorem Settle_paths (w : World) (pubErr : option string) :
  (∀ evs w',
      Settle evs pubErr w = Ok (Break, w') →
      ∃ polls final rest cs logs,
        evs = polls ++ final :: rest
        ∧ observations (self w) polls = Some cs
        ∧ is_Some (observation (self w) final)
        ∧ unchanged_polls cs 3
        ∧ Forall (λ e, is_log e = true) logs
        ∧ trace w' = trace w ++ logs ++ requestFullState_trace (self w) pubErr
                             ++ [Close Readyc]
        ∧ readyc (self w) = false
        ∧ self w' = set_closed Readyc (self w))
  ∧ (∀ polls final rest cs,
      readyc (self w) = false →
      observations (self w) polls = Some cs →
      is_Some (observation (self w) final) →
      unchanged_polls cs 3 →
      ∃ w', Settle (polls ++ final :: rest) pubErr w = Ok (Break, w'))
  ∧ (∀ polls rest w1,
      readyc (self w) = false →
      Settle polls pubErr w = Ok (Blocked, w1) →
      ∃ w', Settle (polls ++ CtxDone :: rest) pubErr w = Ok (Return, w')
            ∧ self w' = set_closed Readyc (self w)
            ∧ trace w' = trace w1
                         ++ [Log Info "gossip not settled but continuing anyway";
                             Close Readyc]
            ∧ publishes (trace w') = publishes (trace w)).
Proof.
  set (w0 := logged (Log Info "Waiting for gossip to settle...") w).
  split; [|split].
  - intros evs w'. rewrite Settle_run. fold w0.
    destruct (Settle_loop evs 0 0 0 w0) as [[exit w1]|e] eqn:Hloop; [|done].
    destruct exit; try done.
    destruct (readyc (self w1)) eqn:Hr; [done|]. intros [= <-].
    destruct (Settle_loop_inv evs [0] 0 0 0 w0 Break w1 eq_refl okay_exact_init Hloop)
      as (logs & Hlogs & Hself & Htrace & polls & final & rest & cs & -> & Hcs & Hfin & Hun).
    exists polls, final, rest, cs, (Log Info "Waiting for gossip to settle..." :: logs).
    simpl in Hself. rewrite Hself in *.
    split; [done|]. split; [done|]. split; [done|]. split; [done|].
    split; [by constructor|]. simpl. rewrite Htrace. simpl.
    split; [by rewrite <- !app_assoc|]. done.
  - intros polls final rest cs Hr Hcs Hfin Hun. rewrite Settle_run. fold w0.
    destruct (Settle_loop_breaks polls [0] 0 0 0 w0 final rest cs eq_refl
                okay_exact_init Hcs Hfin Hun) as [w1 Hloop].
    rewrite Hloop.
    destruct (Settle_loop_inv _ [0] 0 0 0 w0 Break w1 eq_refl okay_exact_init Hloop)
      as (_ & _ & Hself & _).
    rewrite Hself. simpl. rewrite Hr. by eexists.
  - intros polls rest w1 Hr. rewrite !Settle_run. fold w0.
    destruct (Settle_loop polls 0 0 0 w0) as [[exit w1']|e] eqn:Hloop; [|done].
    destruct exit; [by destruct (readyc (self w1'))|done|]. intros [= <-].
    rewrite (Settle_loop_cancelled polls 0 0 0 w0 w1' rest Hloop Hr).
    destruct (Settle_loop_inv polls [0] 0 0 0 w0 Blocked w1' eq_refl okay_exact_init Hloop)
      as (logs & Hlogs & Hself & Htrace & _).
    eexists. split; [done|]. simpl. rewrite Hself. split; [done|]. split; [done|].
    rewrite Htrace. simpl. rewrite !publishes_app, (publishes_logs logs Hlogs).
    simpl. by rewrite !app_nil_r.
Qed.

(** ** The properties on sample inputs *)

Lemma LocalState_one_part_per_state_witness :
  ∃ all w',
    LocalState_all map_to_list worldC = Ok (all, w')
    ∧ Key <$> Parts all ≡ₚ ["nfl"; "sil"].
Proof.
  destruct (LocalState_one_part_per_state (codec := wireProto) map_to_list worldC)
    as (all & w' & Hall & _ & Hparts & _); [reflexivity|].
  exists all, w'. split; [exact Hall|].
  rewrite Hparts. vm_compute. apply Permutation_swap.
Defined.

(** C5 as stated fails: the envelope has a part for a state whose
    [MarshalBinary] returned an error, and so do the bytes that are
    published. *)
Lemma LocalState_part_for_failed_marshal :
  (MarshalBinary unmarshalableState).2 = Some "marshal failed"
  ∧ LocalState_all map_to_list worldD
    = Ok (mkFullState [mkPart "nfl" ""],
          mkWorld peerD [Log Warn "error encoding the local state"])
  ∧ ∃ b w', LocalState (codec := wireProto) map_to_list worldD = Ok (b, w')
            ∧ Unmarshal_FullState b = Some (mkFullState [mkPart "nfl" ""]).
Proof.
  split; [reflexivity|]. split; [reflexivity|].
  eexists _, _. split; reflexivity.
Qed.


Lemma fullStateReq_publishes_once_unless_own_witness :
  fullStateReqReceive_message (codec := wireProto) map_to_list "peer-c" None worldC
  = Ok (tt, worldC)
  ∧ ∃ w', fullStateReqReceive_message (codec := wireProto) map_to_list
                                      "peer-a" None worldC
          = Ok (tt, w')
          ∧ length (publishes (trace w')) = 1%nat.
Proof.
  split.
  - apply (fullStateReq_publishes_once_unless_own (codec := wireProto)
             map_to_list worldC "peer-c" None []).
    reflexivity.
  - destruct (fullStateReq_publishes_once_unless_own (codec := wireProto)
                map_to_list worldC "peer-a" None []) as [_ Hother].
    destruct Hother as (added & Hrun & Hpub & _); [discriminate|].
    eexists. split; [exact Hrun|].
    simpl. rewrite Hpub. reflexivity.
Defined.

Lemma receiveLoop_counts_before_decoding_witness :
  ∃ w1 w2 w3,
    receiveLoop_message (codec := wireProto) "zz" worldC = Ok (tt, w1)
    ∧ trace w1 = [CounterAdd messagesReceived update 1;
                  CounterAdd messagesReceivedSize update 2;
                  Log Warn "error decoding the received broadcast message"]
    ∧ receiveLoop_message (codec := wireProto)
        (wire.marshal_Part (mkPart "am:nfl" "d")) worldC = Ok (tt, w2)
    ∧ trace w2 = [CounterAdd messagesReceived update 1;
                  CounterAdd messagesReceivedSize update 11]
    ∧ receiveLoop_message (codec := wireProto)
        (wire.marshal_Part (mkPart "sil" "d")) worldC = Ok (tt, w3)
    ∧ trace w3 = [CounterAdd messagesReceived update 1;
                  CounterAdd messagesReceivedSize update 8;
                  MergeCall "sil" "d";
                  Log Warn "error merging the received broadcast message"].
Proof.
  destruct (receiveLoop_counts_before_decoding (codec := wireProto) worldC "zz")
    as (r1 & w1 & Hrun1 & Ht1 & _ & Hdec & _).
  destruct (receiveLoop_counts_before_decoding (codec := wireProto) worldC
              (wire.marshal_Part (mkPart "am:nfl" "d")))
    as (r2 & w2 & Hrun2 & Ht2 & _ & _ & Hunk & _).
  destruct (receiveLoop_counts_before_decoding (codec := wireProto) worldC
              (wire.marshal_Part (mkPart "sil" "d")))
    as (r3 & w3 & Hrun3 & Ht3 & _ & _ & _ & Herr & _).
  exists w1, w2, w3.
  rewrite Ht1, Ht2, Ht3, (Hdec eq_refl), (Hunk (mkPart "am:nfl" "d") eq_refl eq_refl),
    (Herr (mkPart "sil" "d") rejectingState "merge rejected" eq_refl eq_refl eq_refl).
  repeat split; assumption || reflexivity.
Defined.

(** C1 at a peer with the key prefix [am:]: the envelope that
    [Broadcast] publishes for the state registered as [nfl] has the key
    [am:nfl], and a peer that has [nfl] registered counts the message and
    merges nothing. *)
Theorem Broadcast_with_prefix_not_merged :
  ∃ c w1 w2 payload wr,
    AddState "nfl" goodState worldA = Ok (c, w1)
    ∧ states (self w1) !! "nfl" = Some goodState
    ∧ Broadcast (codec := wireProto) c "delta" None w1 = Ok (tt, w2)
    ∧ publishes (trace w2) = [("am:nfl", payload)]
    ∧ Unmarshal_Part payload = Some (mkPart "am:nfl" "delta")
    ∧ states (self worldC) !! "nfl" = Some goodState
    ∧ receiveLoop_message (codec := wireProto) payload worldC = Ok (tt, wr)
    ∧ merges (trace wr) = [].
Proof.
  eexists _, _, _, _, _.
  split; [reflexivity|]. split; [reflexivity|]. split; [reflexivity|].
  split; [reflexivity|]. split; [reflexivity|]. split; [reflexivity|].
  split; reflexivity.
Qed.

Lemma Settle_paths_witness :
  (∃ w', Settle [tickTwo; tickTwo; tickTwo; tickTwo; tickTwo] None worldA
         = Ok (Break, w'))
  ∧ (∃ w', Settle [tickTwo; tickTwo; CtxDone] None worldA = Ok (Return, w')
           ∧ readyc (self w') = true
           ∧ publishes (trace w') = [])
  ∧ (∃ cs, unchanged_polls cs 3).
Proof.
  destruct (Settle_paths worldA None) as (Honly & Hsettles & Hcancel).
  assert (Hsettled : ∃ w', Settle [tickTwo; tickTwo; tickTwo; tickTwo; tickTwo]
                                  None worldA = Ok (Break, w')).
  { apply (Hsettles [tickTwo; tickTwo; tickTwo; tickTwo] tickTwo [] [2; 2; 2; 2]).
    - reflexivity.
    - reflexivity.
    - by eexists.
    - by exists 2. }
  split; [exact Hsettled|split].
  - destruct (Hcancel [tickTwo; tickTwo] [] _ eq_refl eq_refl)
      as (w' & Hrun & Hself & _ & Hpub).
    exists w'. split; [exact Hrun|]. split; [by rewrite Hself|exact Hpub].
  - destruct Hsettled as [w' Hrun].
    destruct (Honly _ _ Hrun) as (_ & _ & _ & cs & _ & _ & _ & _ & Hun & _).
    by exists cs.
Defined.

(** * Further properties of the peer *)

(** ** The key prefix *)

Lemma lastByte_app_colon s : lastByte (s +:+ ":") = Some ":"%char.
Proof.
  induction s as [|c s IH]; [done|].
  change (String c s +:+ ":") with (String c (s +:+ ":")).
  simpl. destruct (s +:+ ":") eqn:Hs; [by destruct s|done].
Qed.

(** X1: the prefix the constructor keeps is empty exactly when the
    configured one is, ends with a colon otherwise, and normalising it
    again changes nothing. *)
Theorem normalizePrefix_colon (cfg_prefix : string) :
  lastByte (normalizePrefix cfg_prefix)
  = match cfg_prefix with EmptyString => None | _ => Some ":"%char end
  ∧ normalizePrefix (normalizePrefix cfg_prefix) = normalizePrefix cfg_prefix
  ∧ prefix (newRedisPeer "" cfg_prefix "") = normalizePrefix cfg_prefix.
Proof.
  assert (Hlast : lastByte (normalizePrefix cfg_prefix)
                  = match cfg_prefix with EmptyString => None | _ => Some ":"%char end).
  { unfold normalizePrefix.
    destruct (lastByte cfg_prefix) as [c|] eqn:Hc.
    - destruct cfg_prefix as [|c0 s]; [done|].
      destruct (Ascii.eqb_spec c ":"%char) as [->|_]; [done|].
      apply lastByte_app_colon.
    - destruct cfg_prefix as [|c0 s]; [done|].
      exfalso. clear -Hc. revert c0 Hc.
      induction s as [|c1 s IH]; intros c0 Hc; [done|]. by apply (IH c1). }
  split; [done|]. split; [|done].
  unfold normalizePrefix at 1. rewrite Hlast.
  destruct cfg_prefix; [done|]. by rewrite Ascii.eqb_refl.
Qed.

(** ** Membership *)

(** X2: the names [Members] returns are keys SCAN returned, each at most
    as often as SCAN returned it; the list is never longer than the SCAN
    result and the peer is left as it was. *)
Theorem Members_of_scanned (w w' : World) (scan : ScanReply) (mget : MGetReply)
    (now : nat → time.Time) (l : list string) :
  Members scan mget now w = Ok (l, w') →
  l ⊆+ scanned scan
  ∧ (length l ≤ length (scanned scan))%nat
  ∧ self w' = self w.
Proof.
  rewrite Members_run.
  destruct (Members_result _ _ _ _) as [l0|] eqn:Hres; [|done].
  intros [= <- <-]. apply Members_result_Ok in Hres as ->.
  assert (Hsub : sortStrings (live_keys (heartbeatTimeout (self w)) (mget_val mget)
                                now 0 (scanned scan)) ⊆+ scanned scan).
  { rewrite sortStrings_Permutation.
    apply sublist_submseteq, live_keys_sublist. }
  split; [done|]. split; [by apply submseteq_length|done].
Qed.

Lemma Members_of_scanned_witness :
  ["am:peer-a"; "am:peer-b"] ⊆+ ["am:peer-b"; "am:peer-c"; "am:peer-a"]
  ∧ (2 ≤ 3)%nat ∧ self worldA = self worldA.
Proof.
  apply (Members_of_scanned worldA worldA
           (ScanKeys ["am:peer-b"; "am:peer-c"; "am:peer-a"])
           (mkMGet None [Some "1000"; Some "900"; Some "990"])
           (clockAt 1050)).
  reflexivity.
Defined.

Lemma Members_loop_Ok_parse timeout vals now members :
  ∀ k peers r,
    Members_loop timeout vals now k members peers = Ok r →
    ∀ j v, (j < length members)%nat → vals !! (k + j)%nat = Some (Some v) →
           is_Some (strconv.ParseInt v).
Proof.
  induction members as [|key rest IH]; intros k peers r Hrun j v Hj Hv;
    simpl in *; [lia|].
  destruct (vals !! k) as [[v0|]|] eqn:Hk; [| |done].
  - destruct (strconv.ParseInt v0) as [ts|] eqn:Hp; [|done].
    destruct j as [|j].
    { rewrite Nat.add_0_r, Hk in Hv. injection Hv as <-. by eexists. }
    replace (k + S j)%nat with (S k + j)%nat in Hv by lia.
    destruct (time.Before _ _); eapply (IH _ _ _ Hrun j v); (lia || done).
  - destruct j as [|j]; [rewrite Nat.add_0_r in Hv; congruence|].
    replace (k + S j)%nat with (S k + j)%nat in Hv by lia.
    eapply (IH _ _ _ Hrun j v); (lia || done).
Qed.

Lemma live_keys_zip timeout vals t keys :
  ∀ k, live_keys timeout vals (λ _, t) k keys
       = (filter (λ kv, fresh timeout t kv.2 = true) (zip keys (drop k vals))).*1.
Proof.
  induction keys as [|key rest IH]; intros k; [done|]. simpl.
  destruct (vals !! k) as [v|] eqn:Hk.
  - rewrite (drop_S _ _ _ Hk). simpl. rewrite filter_cons. simpl.
    rewrite IH. destruct (fresh timeout t v); case_decide; done.
  - rewrite (drop_ge vals k) by by apply lookup_ge_None.
    simpl. rewrite IH. rewrite (drop_ge vals (S k)); [by destruct rest|].
    apply lookup_ge_None in Hk. lia.
Qed.

(** X3: with a clock that stands still, what [Members] returns depends on
    the pairs of key and value the broker answered, not on the order in
    which SCAN listed them. *)
Theorem Members_order_independent (w w1 : World) (keys keys' : list string)
    (mget mget' : MGetReply) (t : time.Time) (l : list string) :
  length (mget_val mget) = length keys →
  length (mget_val mget') = length keys' →
  zip keys (mget_val mget) ≡ₚ zip keys' (mget_val mget') →
  Members (ScanKeys keys) mget (λ _, t) w = Ok (l, w1) →
  ∃ w2, Members (ScanKeys keys') mget' (λ _, t) w = Ok (l, w2).
Proof.
  intros Hlen Hlen' Hperm. rewrite !Members_run.
  destruct (Members_result _ (ScanKeys keys) _ _) as [l0|] eqn:Hres; [|done].
  intros [= <- _].
  assert (Hparse : Forall (λ kv : string * option string,
                     ∀ v, kv.2 = Some v → is_Some (strconv.ParseInt v))
                     (zip keys (mget_val mget))).
  { apply Forall_lookup. intros i [key val] Hi v Hv. simpl in Hv. subst val.
    apply lookup_zip_Some in Hi as [Hkey Hval].
    unfold Members_result in Hres.
    destruct keys as [|k0 ks]; [done|].
    change (Nat.eqb (length (k0 :: ks)) 0) with false in Hres. cbv iota in Hres.
    destruct (Members_loop _ _ _ _ _ _) as [peers|] eqn:Hloop; [|done].
    apply (Members_loop_Ok_parse _ _ _ _ _ _ _ Hloop i v); [|done].
    by eapply lookup_lt_Some. }
  rewrite Hperm in Hparse.
  rewrite (Members_result_returns _ (ScanKeys keys')).
  - eexists. f_equal. f_equal.
    apply Members_result_Ok in Hres as ->. simpl.
    apply sortStrings_unique; [apply sortStrings_Sorted|].
    rewrite sortStrings_Permutation, !live_keys_zip, !drop_0.
    by rewrite Hperm.
  - unfold answered. simpl. lia.
  - intros i v Hi Hv. simpl in Hi.
    destruct (lookup_lt_is_Some_2 keys' i Hi) as [key Hkey].
    rewrite Forall_lookup in Hparse.
    apply (Hparse i (key, Some v)); [|done].
    by apply lookup_zip_Some.
Qed.

Lemma Members_order_independent_witness :
  ∃ w2, Members (ScanKeys ["am:peer-a"; "am:peer-b"; "am:peer-c"])
                (mkMGet None [Some "990"; Some "1000"; Some "900"])
                (λ _, time.Unix 1050 0) worldA
        = Ok (["am:peer-a"; "am:peer-b"], w2).
Proof.
  apply (Members_order_independent worldA worldA
           ["am:peer-b"; "am:peer-c"; "am:peer-a"]
           ["am:peer-a"; "am:peer-b"; "am:peer-c"]
           (mkMGet None [Some "1000"; Some "900"; Some "990"])
           (mkMGet None [Some "990"; Some "1000"; Some "900"])
           (time.Unix 1050 0)).
  - reflexivity.
  - reflexivity.
  - simpl. symmetry.
    apply (Permutation_cons_app [("am:peer-b", Some "1000"); ("am:peer-c", Some "900")]
             [] ("am:peer-a", Some "990")).
    reflexivity.
  - reflexivity.
Defined.

(** ** Cluster size and health *)

(** X4: the health score is the number of keys SCAN returned minus the
    number of members, or 0 when that is negative; it is never negative
    and never above the cluster size, and when both calls see the same
    SCAN reply it is the number of keys that [Members] filtered out. *)
Theorem GetHealthScore_bounds (w w' : World) (scan1 scan2 : ScanReply)
    (mget : MGetReply) (now : nat → time.Time) (score : Z) :
  GetHealthScore scan1 scan2 mget now w = Ok (score, w') →
  ∃ l, Members_result (heartbeatTimeout (self w)) scan2 mget now = Ok l
       ∧ score = Z.max 0 (Z.of_nat (length (scanned scan1)) - Z.of_nat (length l))
       ∧ 0 ≤ score ≤ Z.of_nat (length (scanned scan1))
       ∧ (scan1 = scan2 →
          score = Z.of_nat (length (scanned scan1)) - Z.of_nat (length l)).
Proof.
  unfold GetHealthScore. unfold mbind at 1, M_bind at 1.
  assert (Hsize : ∃ w0, ClusterSize scan1 w
                        = Ok (Z.of_nat (length (scanned scan1)), w0)
                        ∧ self w0 = self w).
  { destruct scan1 as [e|members]; by eexists. }
  destruct Hsize as (w0 & -> & Hself).
  unfold mbind at 1, M_bind at 1. rewrite Members_run, Hself.
  destruct (Members_result _ _ _ _) as [l|] eqn:Hres; [|done].
  exists l. split; [done|].
  assert (Hscore : score = Z.max 0 (Z.of_nat (length (scanned scan1))
                                    - Z.of_nat (length l))).
  { destruct (Z.ltb_spec (Z.of_nat (length l)) (Z.of_nat (length (scanned scan1))));
      injection H as <- _; lia. }
  split; [done|]. split; [lia|].
  intros ->. apply Members_result_Ok in Hres.
  assert (length l ≤ length (scanned scan2))%nat; [|lia].
  rewrite Hres, sortStrings_Permutation.
  apply sublist_length, live_keys_sublist.
Qed.

Lemma GetHealthScore_bounds_witness :
  ∃ l, Members_result (heartbeatTimeout (self worldA))
         (ScanKeys ["am:peer-b"; "am:peer-c"; "am:peer-a"])
         (mkMGet None [Some "1000"; Some "900"; Some "990"]) (clockAt 1050) = Ok l
       ∧ 1 = Z.max 0 (3 - Z.of_nat (length l)).
Proof.
  destruct (GetHealthScore_bounds worldA worldA
              (ScanKeys ["am:peer-b"; "am:peer-c"; "am:peer-a"])
              (ScanKeys ["am:peer-b"; "am:peer-c"; "am:peer-a"])
              (mkMGet None [Some "1000"; Some "900"; Some "990"])
              (clockAt 1050) 1 eq_refl) as (l & Hl & Hscore & _).
  by exists l.
Defined.

(** ** Position *)

Lemma Position_loop_Some self_name members :
  ∀ k i,
    Position_loop self_name k members = Some i →
    (k ≤ i < k + length members)%nat
    ∧ members !! (i - k)%nat = Some self_name.
Proof.
  induction members as [|peer rest IH]; intros k i; simpl; [done|].
  destruct (String.eqb_spec peer self_name) as [->|_].
  - intros [= <-]. split; [lia|]. by rewrite Nat.sub_diag.
  - intros [Hrange Hi]%IH. split; [lia|].
    by replace (i - k)%nat with (S (i - S k)) by lia.
Qed.

Lemma Position_loop_elem self_name members :
  ∀ k, self_name ∈ members →
       ∃ i, Position_loop self_name k members = Some (k + i)%nat
            ∧ members !! i = Some self_name
            ∧ ∀ j, (j < i)%nat → members !! j ≠ Some self_name.
Proof.
  induction members as [|peer rest IH]; intros k Hin; [by apply elem_of_nil in Hin|].
  simpl. destruct (String.eqb_spec peer self_name) as [->|Hne].
  - exists 0%nat. rewrite Nat.add_0_r. split; [done|]. split; [done|]. lia.
  - apply elem_of_cons in Hin as [->|Hin]; [done|].
    destruct (IH (S k) Hin) as (i & Hrun & Hi & Hfirst).
    exists (S i). split; [rewrite Hrun; f_equal; lia|]. split; [done|].
    intros [|j] Hj; simpl; [congruence|]. apply Hfirst. lia.
Qed.

(** X5: on a list of members that is not empty, what [Position] returns
    is an index into the list, and when it is not 0 the peer's name
    stands at that index. *)
Theorem Position_index_in_range (w w' : World) (members : list string)
    (nowCheck nowFound : time.Time) (i : Z) :
  members ≠ [] →
  Position_of members nowCheck nowFound w = Ok (i, w') →
  0 ≤ i < Z.of_nat (length members)
  ∧ (i ≠ 0 → members !! Z.to_nat i = Some (name (self w))).
Proof.
  intros Hne. unfold Position_of. run.
  destruct members as [|m ms]; [done|]. simpl.
  destruct (String.eqb_spec m (name (self w))) as [->|_].
  { intros [= <- _]. simpl. split; [lia|done]. }
  destruct (Position_loop (name (self w)) 1 ms) as [j|] eqn:Hj.
  - apply Position_loop_Some in Hj as [Hrange Hat].
    intros [= <- _]. split; [lia|]. intros _. rewrite Nat2Z.id.
    by replace j with (S (j - 1)) by lia.
  - intros [= <- _]. split; [lia|done].
Qed.

Lemma Position_index_in_range_witness :
  0 ≤ 1 < Z.of_nat (length ["peer-a"; "peer-b"; "peer-c"])
  ∧ (1 ≠ 0 → ["peer-a"; "peer-b"; "peer-c"] !! Z.to_nat 1 = Some (name (self worldB))).
Proof.
  apply (Position_index_in_range worldB
           (mkWorld (set_position 1 (time.Unix 1051 0) peerB)
                    [Log Debug "cluster position found"])
           ["peer-a"; "peer-b"; "peer-c"] (time.Unix 1050 0) (time.Unix 1051 0) 1).
  - discriminate.
  - reflexivity.
Defined.

(** X6: two peers with different names that both occur in the same list
    of members get different positions, each the index of its own name. *)
Theorem Position_distinct (wa wb : World) (members : list string)
    (ca fa cb fb : time.Time) :
  name (self wa) ∈ members →
  name (self wb) ∈ members →
  name (self wa) ≠ name (self wb) →
  ∃ i j wa' wb',
    Position_of members ca fa wa = Ok (Z.of_nat i, wa')
    ∧ Position_of members cb fb wb = Ok (Z.of_nat j, wb')
    ∧ members !! i = Some (name (self wa))
    ∧ members !! j = Some (name (self wb))
    ∧ i ≠ j.
Proof.
  intros Ha Hb Hne.
  destruct (Position_loop_elem _ _ 0 Ha) as (i & Hi & Hati & _).
  destruct (Position_loop_elem _ _ 0 Hb) as (j & Hj & Hatj & _).
  assert (Hlen : Nat.eqb (length members) 0 = false).
  { destruct members; [by apply elem_of_nil in Ha|done]. }
  exists i, j. unfold Position_of. run. rewrite Hlen, Hi, Hj. simpl.
  eexists _, _. split; [done|]. split; [done|]. split; [done|]. split; [done|].
  intros ->. congruence.
Qed.

Lemma Position_distinct_witness :
  ∃ i j wa' wb',
    Position_of ["peer-a"; "peer-b"] 0 0
                (mkWorld (newRedisPeer "peer-a" "" "") []) = Ok (Z.of_nat i, wa')
    ∧ Position_of ["peer-a"; "peer-b"] 0 0 worldB = Ok (Z.of_nat j, wb')
    ∧ i ≠ j.
Proof.
  destruct (Position_distinct (mkWorld (newRedisPeer "peer-a" "" "") []) worldB
              ["peer-a"; "peer-b"] 0 0 0 0)
    as (i & j & wa' & wb' & Hi & Hj & _ & _ & Hne).
  - by left.
  - right. by left.
  - discriminate.
  - by exists i, j, wa', wb'.
Defined.

(** X7: once [Position] has found the peer at index [i] at time [t], a
    later call during which SCAN fails returns [i] again as long as the
    clock is less than the validity window past [t], and 0 from then on. *)
Theorem Position_during_outage (w : World) (members : list string)
    (nowCheck t : time.Time) :
  name (self w) ∈ members →
  ∃ i w1,
    Position_of members nowCheck t w = Ok (Z.of_nat i, w1)
    ∧ members !! i = Some (name (self w))
    ∧ ∀ err mget now t' t'',
        ∃ w2, Position (ScanErr err) mget now t' t'' w1
              = Ok ((if t' - positionValidFor (self w) <? t
                     then Z.of_nat i else 0), w2).
Proof.
  intros Hin.
  destruct (Position_loop_elem _ _ 0 Hin) as (i & Hi & Hat & _).
  assert (Hlen : Nat.eqb (length members) 0 = false).
  { destruct members; [by apply elem_of_nil in Hin|done]. }
  exists i. unfold Position_of at 1. run. rewrite Hlen, Hi. simpl.
  eexists. split; [done|]. split; [done|].
  intros err mget now t' t''. unfold Position. unfold mbind at 1, M_bind at 1.
  rewrite Members_run. simpl. unfold Position_of. run.
  unfold time.After, time.Add.
  replace (t' + - positionValidFor (self w)) with (t' - positionValidFor (self w))
    by lia.
  destruct (t' - positionValidFor (self w) <? t); by eexists.
Qed.

Lemma Position_during_outage_witness :
  ∃ w1,
    Position_of ["peer-a"; "peer-b"] 0 (time.Unix 1000 0) worldB = Ok (1, w1)
    ∧ (∃ w2, Position (ScanErr "timeout") (mkMGet None []) (clockAt 0)
                      (time.Unix 1059 0) 0 w1 = Ok (1, w2))
    ∧ (∃ w2, Position (ScanErr "timeout") (mkMGet None []) (clockAt 0)
                      (time.Unix 1060 0) 0 w1 = Ok (0, w2)).
Proof.
  destruct (Position_during_outage worldB ["peer-a"; "peer-b"] 0 (time.Unix 1000 0))
    as (i & w1 & Hrun & Hat & Hlater).
  - right. by left.
  - destruct i as [|[|i]]; simpl in Hat; try discriminate.
    exists w1. split; [exact Hrun|]. split.
    + exact (Hlater "timeout" (mkMGet None []) (clockAt 0) (time.Unix 1059 0) 0).
    + exact (Hlater "timeout" (mkMGet None []) (clockAt 0) (time.Unix 1060 0) 0).
Defined.

Lemma append_length (a b : string) :
  String.length (a +:+ b) = (String.length a + String.length b)%nat.
Proof.
  induction a as [|c a IH]; [done|].
  change (String c a +:+ b) with (String c (a +:+ b)). simpl. by rewrite IH.
Qed.

(** X8: the peer's name is compared with the broker keys as they are.
    With a key prefix that is not empty the peer's own heartbeat key is
    not its name, so on a list that holds only that key [Position]
    returns 0 and leaves the cached position and its time alone. *)
Theorem Position_own_key_with_prefix (w : World) (nowCheck nowFound : time.Time) :
  prefix (self w) ≠ "" →
  withPrefix (self w) (name (self w)) ≠ name (self w)
  ∧ Position_of [withPrefix (self w) (name (self w))] nowCheck nowFound w
    = Ok (0, w).
Proof.
  intros Hprefix.
  assert (Hne : withPrefix (self w) (name (self w)) ≠ name (self w)).
  { intros Heq. apply (f_equal String.length) in Heq.
    unfold withPrefix in Heq. rewrite append_length in Heq.
    destruct (prefix (self w)); [done|]. simpl in Heq. lia. }
  split; [done|]. unfold Position_of. run.
  apply String.eqb_neq in Hne. by rewrite Hne.
Qed.

Lemma Position_own_key_with_prefix_witness :
  Position_of ["am:peer-a"] 0 0 worldA = Ok (0, worldA).
Proof.
  apply (Position_own_key_with_prefix worldA 0 0). discriminate.
Defined.

(** ** Heartbeat *)

Lemma digit_of_char d :
  0 ≤ d < 10 → strconv.digit (ascii_of_N (Z.to_N (48 + d))) = Some d.
Proof.
  intros Hd.
  assert (Hcases : d = 0 ∨ d = 1 ∨ d = 2 ∨ d = 3 ∨ d = 4 ∨ d = 5 ∨ d = 6
                   ∨ d = 7 ∨ d = 8 ∨ d = 9) by lia.
  repeat (destruct Hcases as [->|Hcases]; [reflexivity|]). by subst.
Qed.

Lemma char_of_digit_not_sign d :
  0 ≤ d < 10 →
  Ascii.eqb (ascii_of_N (Z.to_N (48 + d))) "+" = false
  ∧ Ascii.eqb (ascii_of_N (Z.to_N (48 + d))) "-" = false.
Proof.
  intros Hd.
  assert (Hcases : d = 0 ∨ d = 1 ∨ d = 2 ∨ d = 3 ∨ d = 4 ∨ d = 5 ∨ d = 6
                   ∨ d = 7 ∨ d = 8 ∨ d = 9) by lia.
  repeat (destruct Hcases as [->|Hcases]; [by split|]). by subst.
Qed.

Lemma formatDigits_parse fuel :
  ∀ n acc a,
    0 ≤ n < 10 ^ Z.of_nat fuel →
    ∃ k, 0 ≤ k
         ∧ strconv.ParseUint_from a (formatDigits fuel n acc)
           = strconv.ParseUint_from (a * 10 ^ k + n) acc.
Proof.
  induction fuel as [|fuel IH]; intros n acc a Hn.
  { exists 0. split; [done|]. simpl in *. f_equal. lia. }
  assert (Hmod : 0 ≤ n mod 10 < 10) by (apply Z.mod_pos_bound; lia).
  simpl formatDigits. destruct (Z.ltb_spec n 10) as [Hsmall|Hbig].
  - exists 1. split; [lia|]. simpl strconv.ParseUint_from.
    rewrite (digit_of_char _ Hmod). f_equal.
    rewrite Z.mod_small by lia. lia.
  - destruct (IH (n / 10)
                 (String (ascii_of_N (Z.to_N (48 + n mod 10))) acc) a)
      as (k & Hk & ->).
    { split; [apply Z.div_pos; lia|].
      apply Z.div_lt_upper_bound; [lia|].
      replace (Z.of_nat (S fuel)) with (Z.succ (Z.of_nat fuel)) in Hn by lia.
      rewrite Z.pow_succ_r in Hn by lia. lia. }
    exists (k + 1). split; [lia|]. simpl strconv.ParseUint_from.
    rewrite (digit_of_char _ Hmod). f_equal.
    rewrite Z.pow_add_r by lia.
    pose proof (Z.div_mod n 10). lia.
Qed.

Lemma formatDigits_head fuel :
  ∀ n acc,
    ∃ d rest, 0 ≤ d < 10
              ∧ formatDigits (S fuel) n acc
                = String (ascii_of_N (Z.to_N (48 + d))) rest.
Proof.
  induction fuel as [|fuel IH]; intros n acc.
  - exists (n mod 10), acc. simpl.
    split; [apply Z.mod_pos_bound; lia|]. by destruct (n <? 10).
  - change (formatDigits (S (S fuel)) n acc)
      with (let acc' := String (ascii_of_N (Z.to_N (48 + n mod 10))) acc in
            if n <? 10 then acc' else formatDigits (S fuel) (n / 10) acc').
    cbv zeta. destruct (n <? 10).
    + exists (n mod 10), acc. split; [apply Z.mod_pos_bound; lia|done].
    + apply IH.
Qed.

(** What the heartbeat writes for a 64-bit count of seconds is read back
    by [ParseInt] as the same count. *)
Lemma ParseInt_FormatInt z :
  - 2 ^ 63 ≤ z < 2 ^ 63 → strconv.ParseInt (FormatInt z) = Some z.
Proof.
  intros Hz. unfold FormatInt. destruct (Z.ltb_spec z 0) as [Hneg|Hpos].
  - destruct (formatDigits_head 19 (- z) "") as (d & rest & Hd & Hhead).
    destruct (formatDigits_parse 20 (- z) "" 0) as (k & _ & Hparse).
    { split; [lia|]. change (10 ^ Z.of_nat 20) with 100000000000000000000. lia. }
    replace (0 * 10 ^ k + - z) with (- z) in Hparse by lia.
    unfold strconv.ParseInt. simpl Ascii.eqb. cbv zeta. simpl orb. cbv iota.
    unfold strconv.ParseUint. rewrite Hhead. rewrite <- Hhead, Hparse.
    simpl. unfold strconv.cutoff.
    destruct (Z.ltb_spec (2 ^ 63) (- z)); [lia|]. f_equal. lia.
  - destruct (formatDigits_head 19 z "") as (d & rest & Hd & Hhead).
    destruct (formatDigits_parse 20 z "" 0) as (k & _ & Hparse).
    { split; [lia|]. change (10 ^ Z.of_nat 20) with 100000000000000000000. lia. }
    replace (0 * 10 ^ k + z) with z in Hparse by lia.
    destruct (char_of_digit_not_sign d Hd) as [Hplus Hminus].
    unfold strconv.ParseInt. rewrite Hhead, Hplus, Hminus. cbv zeta.
    simpl orb. cbv iota. unfold strconv.ParseUint. rewrite <- Hhead, Hparse.
    simpl. unfold strconv.cutoff.
    destruct (Z.leb_spec (2 ^ 63) z); [lia|]. done.
Qed.

(** X9: for a tick at a time [t] whose Unix second [time.Unix] takes
    without wrapping around, the value the heartbeat writes under the
    peer's key parses back to that second; a [Members] call that gets this
    value for a key keeps the key when its clock is at most
    [t + timeout - 1s] and drops it when its clock is past [t + timeout]. *)
Theorem heartbeat_read_by_Members (p : redisPeer) (t : time.Time)
    (reqDur : time.Duration) (setErr : option string) (evs : list HeartbeatEvent) :
  - 2 ^ 63 ≤ unixSeconds t ≤ maxUnixSecond →
  ∃ v cmds exit,
    heartbeatLoop p (HbTick t reqDur setErr :: evs)
    = (SetEX (withPrefix p (name p)) v (time.Minute * 5) :: cmds, exit)
    ∧ strconv.ParseInt v = Some (unixSeconds t)
    ∧ ∀ (w : World) (key : string) (clock : time.Time),
        (clock + time.Second ≤ t + heartbeatTimeout (self w) →
         ∃ w', Members (ScanKeys [key]) (mkMGet None [Some v]) (λ _, clock) w
               = Ok ([key], w'))
        ∧ (t + heartbeatTimeout (self w) < clock →
           ∃ w', Members (ScanKeys [key]) (mkMGet None [Some v]) (λ _, clock) w
                 = Ok ([], w')).
Proof.
  intros Hsec. exists (FormatInt (unixSeconds t)).
  simpl heartbeatLoop. destruct (heartbeatLoop p evs) as [cmds exit].
  assert (Hparse : strconv.ParseInt (FormatInt (unixSeconds t))
                   = Some (unixSeconds t)).
  { apply ParseInt_FormatInt. unfold maxUnixSecond, time.unixToInternal in Hsec. lia. }
  assert (Hunix := Unix_seconds _ Hsec).
  assert (Hfloor : unixSeconds t * time.Second ≤ t
                   < unixSeconds t * time.Second + time.Second).
  { unfold unixSeconds, time.Second.
    pose proof (Z.div_mod t 1000000000).
    pose proof (Z.mod_pos_bound t 1000000000). lia. }
  destruct (bool_decide (setErr ≠ None)); eexists _, _;
    (split; [done|]); (split; [done|]);
    intros w key clock; rewrite Members_run; unfold Members_result; simpl;
    rewrite Hparse, Hunix; unfold time.Before, time.Add;
    (split; intros Hclock;
     [destruct (Z.ltb_spec (unixSeconds t * time.Second)
                           (clock + - heartbeatTimeout (self w))); [lia|by eexists]
     |destruct (Z.ltb_spec (unixSeconds t * time.Second)
                           (clock + - heartbeatTimeout (self w))); [by eexists|lia]]).
Qed.

Lemma heartbeat_read_by_Members_witness :
  ∃ v cmds exit,
    heartbeatLoop peerA [HbTick (time.Unix 1000 500) 3000000 None; HbShutdown]
    = (SetEX "am:peer-a" v (time.Minute * 5) :: cmds, exit)
    ∧ strconv.ParseInt v = Some 1000.
Proof.
  destruct (heartbeat_read_by_Members peerA (time.Unix 1000 500) 3000000 None
              [HbShutdown]) as (v & cmds & exit & Hrun & Hparse & _).
  - vm_compute. split; discriminate.
  - exists v, cmds, exit. split; [exact Hrun|exact Hparse].
Defined.

Lemma sets_app a b : sets (a ++ b) = sets a ++ sets b.
Proof. apply omap_app. Qed.

(** X10: the heartbeat loop writes once per tick that comes before the
    shutdown channel is found closed, always under the peer's own key and
    with a lifetime of five minutes; it records a latency for the ticks
    whose SET did not fail and for no other; and nothing that comes after
    the shutdown has any effect. *)
Theorem heartbeatLoop_until_shutdown (p : redisPeer) (evs post : list HeartbeatEvent) :
  let ticks := ticks_before_shutdown evs in
  sets (heartbeatLoop p evs).1
  = (λ tick, (withPrefix p (name p), FormatInt (unixSeconds tick.1.1),
              time.Minute * 5)) <$> ticks
  ∧ observes (heartbeatLoop p evs).1
    = (λ tick, tick.1.2) <$> filter (λ tick, tick.2 = None) ticks
  ∧ heartbeatLoop p (evs ++ HbShutdown :: post) = heartbeatLoop p (evs ++ [HbShutdown])
  ∧ (heartbeatLoop p (evs ++ HbShutdown :: post)).2 = Return.
Proof.
  induction evs as [|ev evs IH]; [done|].
  destruct ev as [now reqDur setErr|]; [|done].
  destruct IH as (Hsets & Hobs & Hpost & Hexit).
  simpl app. simpl heartbeatLoop. simpl ticks_before_shutdown. cbv zeta.
  rewrite Hpost.
  destruct (heartbeatLoop p evs) as [cmds exit].
  destruct (heartbeatLoop p (evs ++ [HbShutdown])) as [cmds' exit'] eqn:Hrun'.
  rewrite Hpost in Hexit. simpl in Hsets, Hobs, Hexit.
  rewrite filter_cons. simpl.
  destruct setErr as [e|]; simpl;
    fold (sets cmds); fold (observes cmds); rewrite Hsets, Hobs;
    by repeat case_decide.
Qed.

(** ** Sending and receiving *)

Lemma counter_updates_app t u :
  counter_updates (t ++ u) = counter_updates t ++ counter_updates u.
Proof. apply filter_app. Qed.


Lemma sleeps_app t u : sleeps (t ++ u) = sleeps t ++ sleeps u.
Proof. apply omap_app. Qed.

Lemma counter_updates_marshal_logs kvs : counter_updates (marshal_logs kvs) = [].
Proof.
  induction kvs as [|kv rest IH]; [done|].
  unfold marshal_logs. simpl. fold (marshal_logs rest).
  rewrite counter_updates_app, IH. by destruct (bool_decide _).
Qed.

Lemma callMerge_dom key s data w :
  states (self w) !! key = Some s →
  dom (states (self (merged_world key s data w))) = dom (states (self w)).
Proof.
  intros Hs. simpl. apply dom_insert_lookup_L. by eexists.
Qed.

Section Channels.
Context {codec : Proto}.
Variable mapRange : gmap string State → list (string * State).

(** X11: [Broadcast] publishes exactly when the envelope could be
    marshalled, and updates the two sent counters, by 1 and by the length
    of the payload, exactly when the publish also succeeded. *)
Theorem Broadcast_counts_published (c : RedisChannel) (b : bytes)
    (pubErr : option string) (w : World) :
  let payload := (Marshal_Part (mkPart (channel c) b)).1 in
  let err := (Marshal_Part (mkPart (channel c) b)).2 in
  ∃ added,
    Broadcast c b pubErr w = Ok (tt, mkWorld (self w) (trace w ++ added))
    ∧ publishes added
      = (if bool_decide (err = None) then [(channel c, payload)] else [])
    ∧ counter_updates added
      = (if bool_decide (err = None ∧ pubErr = None)
         then [CounterAdd messagesSent (msgType c) 1;
               CounterAdd messagesSentSize (msgType c) (len payload)]
         else []).
Proof.
  unfold Broadcast. destruct (Marshal_Part _) as [payload err]. simpl.
  destruct err as [e|]; simpl.
  { exists []. destruct w. by rewrite app_nil_r. }
  destruct pubErr as [e|]; simpl; run.
  - eexists [_; _]. by rewrite <- !app_assoc.
  - eexists [_; _; _]. by rewrite <- !app_assoc.
Qed.

(** X12: a full-state publish leaves the peer as it is, issues one
    PUBLISH on the full-state channel, and updates the two sent counters
    once, whether or not a state failed to marshal and whether or not the
    publish failed. *)
Theorem fullStateSyncPublish_counts_always (pubErr : option string) (w : World) :
  let b := (Marshal_FullState
              (LocalState_envelope (mapRange (states (self w))))).1 in
  ∃ added,
    fullStateSyncPublish mapRange pubErr w
    = Ok (tt, mkWorld (self w) (trace w ++ added))
    ∧ publishes added = [(withPrefix (self w) fullStateChannel, b)]
    ∧ counter_updates added
      = [CounterAdd messagesSent fullState 1;
         CounterAdd messagesSentSize fullState (len b)].
Proof.
  intros b. rewrite fullStateSyncPublish_run. eexists. split; [done|].
  split; [apply publishes_fullStateSyncPublish_trace|].
  unfold fullStateSyncPublish_trace, LocalState_trace. subst b.
  destruct (Marshal_FullState _) as [b err]. simpl.
  rewrite !counter_updates_app, counter_updates_marshal_logs.
  by destruct (bool_decide (err ≠ None)), (bool_decide (pubErr ≠ None)).
Qed.

Lemma receiveLoop_message_run payload w :
  ∃ rest w',
    receiveLoop_message payload w = Ok (tt, w')
    ∧ trace w' = trace w
                 ++ [CounterAdd messagesReceived update 1;
                     CounterAdd messagesReceivedSize update (len payload)]
                 ++ rest
    ∧ counter_updates rest = []
    ∧ sleeps rest = []
    ∧ dom (states (self w')) = dom (states (self w)).
Proof.
  unfold receiveLoop_message. run.
  destruct (Unmarshal_Part payload) as [part|]; run.
  - destruct (states (self w) !! Key part) as [s|] eqn:Hs; run.
    + assert (Hdom : dom (<[Key part := (Merge s (Data part)).1]> (states (self w)))
                     = dom (states (self w))).
      { apply dom_insert_lookup_L. by eexists. }
      destruct (Merge_err s (merged s) (Data part)); run.
      * eexists [_; _], _. split; [done|]. simpl.
        split; [by rewrite <- !app_assoc|]. done.
      * eexists [_], _. split; [done|]. simpl.
        split; [by rewrite <- !app_assoc|]. done.
    + eexists [], _. split; [done|]. simpl.
      split; [by rewrite <- !app_assoc|]. done.
  - eexists [_], _. split; [done|]. simpl.
    split; [by rewrite <- !app_assoc|]. done.
Qed.

(** X13: over any schedule the delta receive loop does not panic; it
    returns when it finds the shutdown channel closed and waits otherwise;
    up to there it updates the received counters once per delivered
    message, by 1 and by the length of the payload, sleeps the retry
    interval once per network error and at no other time, and leaves the
    set of registered keys as it was. *)
Theorem receiveLoop_schedule (evs : list LoopEvent) (w : World) :
  ∃ w' added,
    receiveLoop evs w = Ok (exit_of (sees_shutdown evs), w')
    ∧ trace w' = trace w ++ added
    ∧ counter_updates added
      = flat_map (λ payload,
                    [CounterAdd messagesReceived update 1;
                     CounterAdd messagesReceivedSize update (len payload)])
                 (delivered evs)
    ∧ sleeps added = replicate (network_errors evs) networkRetryInterval
    ∧ dom (states (self w')) = dom (states (self w)).
Proof.
  revert w. induction evs as [|ev evs IH]; intros w.
  { exists w, []. by rewrite app_nil_r. }
  destruct ev as [|r]; [exists w, []; by rewrite app_nil_r|].
  destruct r as [payload|e|e]; simpl.
  - destruct (receiveLoop_message_run payload w)
      as (rest & w1 & Hmsg & Ht1 & Hc1 & Hs1 & Hd1).
    destruct (IH w1) as (w' & added & Hrun & Ht & Hc & Hs & Hd).
    exists w', ([CounterAdd messagesReceived update 1;
                 CounterAdd messagesReceivedSize update (len payload)]
                ++ rest ++ added).
    unfold mbind at 1, M_bind at 1. rewrite Hmsg. split; [done|].
    split; [by rewrite Ht, Ht1, <- !app_assoc|].
    split; [by rewrite !counter_updates_app, Hc1, Hc|].
    split; [by rewrite !sleeps_app, Hs1, Hs|]. by rewrite Hd, Hd1.
  - run. destruct (IH (mkWorld (self w)
                         ((trace w ++ [Log Error "network error, waiting 10 seconds before retry"])
                            ++ [Sleep networkRetryInterval])))
      as (w' & added & Hrun & Ht & Hc & Hs & Hd).
    exists w', ([Log Error "network error, waiting 10 seconds before retry";
                 Sleep networkRetryInterval] ++ added).
    split; [done|]. simpl in Ht. split; [by rewrite Ht, <- !app_assoc|].
    split; [by rewrite counter_updates_app, Hc|].
    split; [by rewrite sleeps_app, Hs|done].
  - run. destruct (IH (mkWorld (self w)
                         (trace w ++ [Log Error "error receiving message from redis"])))
      as (w' & added & Hrun & Ht & Hc & Hs & Hd).
    exists w', ([Log Error "error receiving message from redis"] ++ added).
    split; [done|]. simpl in Ht. split; [by rewrite Ht, <- !app_assoc|].
    split; [by rewrite counter_updates_app, Hc|].
    split; [by rewrite sleeps_app, Hs|done].
Qed.




End Channels.


(** ** Lifecycle *)

Lemma Settle_closed_gate evs pubErr w exit w' :
  readyc (self w) = true →
  Settle evs pubErr w = Ok (exit, w') →
  exit = Blocked.
Proof.
  intros Hr. rewrite Settle_run.
  destruct (Settle_loop _ _ _ _ _) as [[exit1 w1]|e] eqn:Hloop; [|done].
  destruct (Settle_loop_inv _ [0] 0 0 0 _ exit1 w1 eq_refl okay_exact_init Hloop)
    as (logs & _ & Hinv).
  destruct exit1.
  - destruct Hinv as (Hself & _). rewrite Hself. simpl. by rewrite Hr.
  - destruct Hinv as (Hopen & _). simpl in Hopen. congruence.
  - by intros [= <- _].
Qed.

(** X16: when [Settle] has returned, by either path, the readiness gate
    is closed, so [WaitReady] with a live context returns nil; and a
    second [Settle] can no longer return: it is left waiting or it panics
    on closing the closed gate. *)
Theorem Settle_only_once (w w1 : World) (evs : list SettleEvent)
    (pubErr : option string) (exit : LoopExit) :
  Settle evs pubErr w = Ok (exit, w1) →
  exit ≠ Blocked →
  readyc (self w1) = true
  ∧ (∀ pickCtx, WaitReady None pickCtx (self w1) = Some None)
  ∧ (∀ evs2 pubErr2 exit2 w2,
       Settle evs2 pubErr2 w1 = Ok (exit2, w2) → exit2 = Blocked)
  ∧ (∀ rest pubErr2, Settle (CtxDone :: rest) pubErr2 w1
                     = Panic "close of closed channel").
Proof.
  intros Hrun Hexit.
  assert (Hclosed : readyc (self w1) = true).
  { rewrite Settle_run in Hrun.
    destruct (Settle_loop _ _ _ _ _) as [[exit1 w0]|e] eqn:Hloop; [|done].
    destruct (Settle_loop_inv _ [0] 0 0 0 _ exit1 w0 eq_refl okay_exact_init Hloop)
      as (logs & _ & Hinv).
    destruct exit1.
    - destruct (readyc (self w0)); [done|]. by injection Hrun as <- <-.
    - destruct Hinv as (_ & Hself & _). injection Hrun as <- <-. by rewrite Hself.
    - by injection Hrun as <- _. }
  split; [done|]. split; [|split].
  - intros pickCtx. unfold WaitReady. by rewrite Hclosed.
  - intros evs2 pubErr2 exit2 w2. by apply Settle_closed_gate.
  - intros rest pubErr2. rewrite Settle_run, Settle_loop_ctxDone. simpl.
    by rewrite Hclosed.
Qed.

Lemma Settle_only_once_witness :
  ∃ w1, Settle [tickTwo; CtxDone] None worldA = Ok (Return, w1)
        ∧ readyc (self w1) = true
        ∧ Settle [CtxDone] None w1 = Panic "close of closed channel".
Proof.
  eexists. split; [reflexivity|].
  destruct (Settle_only_once worldA _ [tickTwo; CtxDone] None Return eq_refl)
    as (Hclosed & _ & _ & Hpanic); [discriminate|].
  split; [exact Hclosed|exact (Hpanic [] None)].
Defined.

Section LifecycleProperties.
Context {codec : Proto}.
Variable mapRange : gmap string State → list (string * State).

(** X17: [Shutdown] on a peer whose shutdown channel is open closes it,
    then publishes the full state once, then deletes the peer's own key,
    and leaves the registry as it was; a second [Shutdown] panics on
    closing the closed channel before it publishes anything. *)
Theorem Shutdown_once (pubErr delErr : option string) (w : World) :
  shutdownc (self w) = false →
  ∃ w' cmds added,
    Shutdown mapRange pubErr delErr w = Ok (w', cmds)
    ∧ self w' = set_closed Shutdownc (self w)
    ∧ trace w' = trace w ++ [Log Info "Stopping redis peer..."; Close Shutdownc]
                         ++ added
    ∧ publishes added
      = [(withPrefix (self w) fullStateChannel,
          (Marshal_FullState
             (LocalState_envelope (mapRange (states (self w))))).1)]
    ∧ head cmds = Some (Del (withPrefix (self w) (name (self w))))
    ∧ ∀ pubErr2 delErr2,
        Shutdown mapRange pubErr2 delErr2 w' = Panic "close of closed channel".
Proof.
  intros Hopen. unfold Shutdown.
  assert (Hfirst : (emit (Log Info "Stopping redis peer...");; close Shutdownc) w
                   = Ok (tt, mkWorld (set_closed Shutdownc (self w))
                               (trace w ++ [Log Info "Stopping redis peer...";
                                            Close Shutdownc]))).
  { unfold close. run. rewrite Hopen. simpl. by rewrite <- !app_assoc. }
  assert (Hrun : (emit (Log Info "Stopping redis peer...");;
                  close Shutdownc;;
                  fullStateSyncPublish mapRange pubErr) w
                 = fullStateSyncPublish mapRange pubErr
                     (mkWorld (set_closed Shutdownc (self w))
                        (trace w ++ [Log Info "Stopping redis peer...";
                                     Close Shutdownc]))).
  { unfold close in *. revert Hfirst. run. rewrite Hopen. simpl.
    by rewrite <- !app_assoc. }
  rewrite Hrun, fullStateSyncPublish_run. simpl.
  eexists _, _, _. split; [done|]. split; [done|]. simpl.
  split; [by rewrite <- !app_assoc|].
  split; [by rewrite publishes_fullStateSyncPublish_trace|]. split; [done|].
  intros pubErr2 delErr2. unfold close. by run.
Qed.



(** X20: registering a key again replaces the state stored for it and
    leaves the other states alone, returns the same channel handle, and
    subscribes and starts a receive loop on that channel a second time. *)
Theorem AddState_again (key : string) (s1 s2 : State) (w w1 w2 : World)
    (c1 c2 : RedisChannel) :
  AddState key s1 w = Ok (c1, w1) →
  AddState key s2 w1 = Ok (c2, w2) →
  c2 = c1
  ∧ states (self w2) !! key = Some s2
  ∧ (∀ k, k ≠ key → states (self w2) !! k = states (self w) !! k)
  ∧ trace w2 = trace w ++ [Subscribe (channel c1); Go (ReceiveLoop key (channel c1));
                           Subscribe (channel c1); Go (ReceiveLoop key (channel c1))].
Proof.
  rewrite !AddState_run. intros [= <- <-]. simpl. intros [= <- <-]. simpl.
  split; [done|]. split; [by rewrite lookup_insert_eq|]. split.
  - intros k Hk. by rewrite !lookup_insert_ne.
  - by rewrite <- !app_assoc.
Qed.

End LifecycleProperties.

Lemma Shutdown_once_witness :
  ∃ w' cmds,
    Shutdown (codec := wireProto) map_to_list None None worldC = Ok (w', cmds)
    ∧ head cmds = Some (Del "am:peer-c")
    ∧ Shutdown (codec := wireProto) map_to_list None None w'
      = Panic "close of closed channel".
Proof.
  destruct (Shutdown_once (codec := wireProto) map_to_list None None worldC eq_refl)
    as (w' & cmds & added & Hrun & _ & _ & _ & Hdel & Hagain).
  exists w', cmds. split; [exact Hrun|]. split; [exact Hdel|exact (Hagain None None)].
Defined.

Lemma AddState_again_witness :
  ∃ c1 w1 c2 w2,
    AddState "nfl" goodState worldA = Ok (c1, w1)
    ∧ AddState "nfl" rejectingState w1 = Ok (c2, w2)
    ∧ c2 = c1
    ∧ states (self w2) !! "nfl" = Some rejectingState.
Proof.
  eexists _, _, _, _. split; [reflexivity|]. split; [reflexivity|].
  destruct (AddState_again "nfl" goodState rejectingState worldA _ _ _ _
              eq_refl eq_refl) as (Hc & Hnew & _).
  split; [exact Hc|exact Hnew].
Defined.

(** ** The receive loops and the registry *)

Section ReceiveProperties.
Context {codec : Proto}.

Lemma mergeParts_quiet parts :
  ∀ w, ∃ exit w' added,
    mergeParts parts w = Ok (exit, w')
    ∧ trace w' = trace w ++ added
    ∧ counter_updates added = []
    ∧ sleeps added = []
    ∧ dom (states (self w')) = dom (states (self w)).
Proof.
  induction parts as [|part rest IH]; intros w.
  { exists RangeDone, w, []. by rewrite app_nil_r. }
  destruct (states (self w) !! Key part) as [s|] eqn:Hs.
  - destruct (Merge_err s (merged s) (Data part)) as [e|] eqn:Hm.
    + rewrite (mergeParts_error _ _ _ _ _ Hs Hm).
      eexists _, _, [_; _]. split; [done|]. simpl.
      split; [by rewrite <- !app_assoc|]. split; [done|]. split; [done|].
      apply dom_insert_lookup_L. by eexists.
    + rewrite (mergeParts_merged _ _ _ _ Hs Hm).
      destruct (IH (merged_world (Key part) s (Data part) w))
        as (exit & w' & added & Hrun & Ht & Hc & Hsl & Hd).
      rewrite (callMerge_dom _ _ _ _ Hs) in Hd.
      exists exit, w', (MergeCall (Key part) (Data part) :: added).
      split; [done|]. simpl in Ht. split; [by rewrite Ht, <- !app_assoc|]. done.
  - rewrite (mergeParts_unknown _ _ _ Hs).
    destruct (IH (logged (Log Warn "received") w))
      as (exit & w' & added & Hrun & Ht & Hc & Hsl & Hd).
    exists exit, w', (Log Warn "received" :: added).
    split; [done|]. simpl in Ht. split; [by rewrite Ht, <- !app_assoc|]. done.
Qed.

Lemma fullStateSyncReceive_message_run payload w :
  ∃ rest w',
    fullStateSyncReceive_message payload w = Ok (tt, w')
    ∧ trace w' = trace w
                 ++ [CounterAdd messagesReceived fullState 1;
                     CounterAdd messagesReceivedSize fullState (len payload)]
                 ++ rest
    ∧ counter_updates rest = []
    ∧ sleeps rest = []
    ∧ dom (states (self w')) = dom (states (self w)).
Proof.
  unfold fullStateSyncReceive_message. run.
  destruct (Unmarshal_FullState payload) as [fs|].
  - destruct (mergeParts_quiet (Parts fs)
                (mkWorld (self w)
                   ((trace w ++ [CounterAdd messagesReceived fullState 1])
                      ++ [CounterAdd messagesReceivedSize fullState (len payload)])))
      as (exit & w' & added & Hrun & Ht & Hc & Hsl & Hd).
    exists added, w'. unfold mbind, M_bind. rewrite Hrun. split; [done|].
    simpl in Ht. split; [by rewrite Ht, <- !app_assoc|]. done.
  - run. eexists [_], _. split; [done|]. simpl.
    split; [by rewrite <- !app_assoc|]. done.
Qed.

(** X21: over any schedule the full-state receive loop does not panic; it
    returns when it finds the shutdown channel closed and waits otherwise;
    up to there it updates the received counters once per delivered
    message, decodable or not, sleeps the retry interval once per network
    error, and leaves the set of registered keys as it was. *)
Theorem fullStateSyncReceiveLoop_schedule (evs : list LoopEvent) (w : World) :
  ∃ w' added,
    fullStateSyncReceiveLoop evs w = Ok (exit_of (sees_shutdown evs), w')
    ∧ trace w' = trace w ++ added
    ∧ counter_updates added
      = flat_map (λ payload,
                    [CounterAdd messagesReceived fullState 1;
                     CounterAdd messagesReceivedSize fullState (len payload)])
                 (delivered evs)
    ∧ sleeps added = replicate (network_errors evs) networkRetryInterval
    ∧ dom (states (self w')) = dom (states (self w)).
Proof.
  revert w. induction evs as [|ev evs IH]; intros w.
  { exists w, []. by rewrite app_nil_r. }
  destruct ev as [|r]; [exists w, []; by rewrite app_nil_r|].
  destruct r as [payload|e|e]; simpl.
  - destruct (fullStateSyncReceive_message_run payload w)
      as (rest & w1 & Hmsg & Ht1 & Hc1 & Hs1 & Hd1).
    destruct (IH w1) as (w' & added & Hrun & Ht & Hc & Hs & Hd).
    exists w', ([CounterAdd messagesReceived fullState 1;
                 CounterAdd messagesReceivedSize fullState (len payload)]
                ++ rest ++ added).
    unfold mbind at 1, M_bind at 1. rewrite Hmsg. split; [done|].
    split; [by rewrite Ht, Ht1, <- !app_assoc|].
    split; [by rewrite !counter_updates_app, Hc1, Hc|].
    split; [by rewrite !sleeps_app, Hs1, Hs|]. by rewrite Hd, Hd1.
  - run. destruct (IH (mkWorld (self w)
                         ((trace w ++ [Log Error "network error, waiting 10 seconds before retry"])
                            ++ [Sleep networkRetryInterval])))
      as (w' & added & Hrun & Ht & Hc & Hs & Hd).
    exists w', ([Log Error "network error, waiting 10 seconds before retry";
                 Sleep networkRetryInterval] ++ added).
    split; [done|]. simpl in Ht. split; [by rewrite Ht, <- !app_assoc|].
    split; [by rewrite counter_updates_app, Hc|].
    split; [by rewrite sleeps_app, Hs|done].
  - run. destruct (IH (mkWorld (self w)
                         (trace w ++ [Log Error "error receiving message from redis"])))
      as (w' & added & Hrun & Ht & Hc & Hs & Hd).
    exists w', ([Log Error "error receiving message from redis"] ++ added).
    split; [done|]. simpl in Ht. split; [by rewrite Ht, <- !app_assoc|].
    split; [by rewrite counter_updates_app, Hc|].
    split; [by rewrite sleeps_app, Hs|done].
Qed.

(** X22: a delivered delta whose envelope decodes to a registered key
    makes one [Merge] call, with the data of the envelope, on the state
    registered under that key: the payload is appended to what that state
    has been asked to merge, and every other state is as it was. *)
Theorem receiveLoop_message_merges (payload : string) (part : Part) (s : State)
    (w : World) :
  Unmarshal_Part payload = Some part →
  states (self w) !! Key part = Some s →
  ∃ w' s' added,
    receiveLoop_message payload w = Ok (tt, w')
    ∧ trace w' = trace w ++ added
    ∧ merges added = [(Key part, Data part)]
    ∧ states (self w') !! Key part = Some s'
    ∧ merged s' = merged s ++ [Data part]
    ∧ ∀ k, k ≠ Key part → states (self w') !! k = states (self w) !! k.
Proof.
  intros Hu Hs. unfold receiveLoop_message. run. rewrite Hu. simpl. rewrite Hs. run.
  destruct (bool_decide _); run.
  - eexists _, _, [_; _; _; _]. split; [done|]. simpl.
    split; [by rewrite <- !app_assoc|]. split; [done|].
    split; [by rewrite lookup_insert_eq|]. split; [done|].
    intros k Hk. by rewrite lookup_insert_ne.
  - eexists _, _, [_; _; _]. split; [done|]. simpl.
    split; [by rewrite <- !app_assoc|]. split; [done|].
    split; [by rewrite lookup_insert_eq|]. split; [done|].
    intros k Hk. by rewrite lookup_insert_ne.
Qed.

End ReceiveProperties.

Lemma receiveLoop_message_merges_witness :
  ∃ w' s',
    receiveLoop_message (codec := wireProto)
      (wire.marshal_Part (mkPart "nfl" "delta")) worldC = Ok (tt, w')
    ∧ states (self w') !! "nfl" = Some s'
    ∧ merged s' = ["delta"].
Proof.
  destruct (receiveLoop_message_merges (codec := wireProto)
              (wire.marshal_Part (mkPart "nfl" "delta")) (mkPart "nfl" "delta")
              goodState worldC eq_refl eq_refl)
    as (w' & s' & added & Hrun & _ & _ & Hs' & Hmerged & _).
  by exists w', s'.
Defined.
